(** * Fast univariate Lagrange evaluation over a prime field

  Shallow embedding of [src/lib/message-extensions/fast-univariate-lagrange.ts]
  and proofs about it.

  The TypeScript module evaluates, at a field element [r], the polynomial
  of degree below [n] whose values on [0, 1, ..., n-1] are the character
  codes of a message of length [n].  It works on o1js [Field] constants:
  integers modulo a prime [p], kept as the representative in [0, p).

  The field is modelled with the Standard Library's [Zmod p].  The modulus
  is a parameter of the development: the properties are proved for every
  prime modulus.  o1js fixes one 255-bit prime, [pallas] below; it is proved
  prime here, and the concrete runs are traced in that field. *)

From Stdlib Require Import ZArith Lia List Bool String Ascii Field.
From Stdlib Require Import Znumtheory Zpow_facts.
From Stdlib Require Import Zmod.Zmod.
Import ListNotations.

#[local] Open Scope Z_scope.

(** ** Errors and the evaluation monad *)

(** The three [throw Error(...)] sites of the module, the error o1js raises
  from [Field.div] on a zero divisor, and the failure of reading a
  character or an array cell that does not exist ([undefined] in
  JavaScript, which neither [asciiToNumber] nor [Field.sub] accepts). *)
Inductive error : Type :=
| EmptyMessageError   (* "Message cannot be empty." *)
| InvalidIndexError   (* "... requires the (i-1)th Lagrange basis value ..." *)
| DomainPointError    (* "... requires that r is not an element of the interpolating set" *)
| DivisionByZero      (* thrown by o1js when [Field.div] gets a zero divisor *)
| UndefinedAccess.    (* message[k] or interpolatingSet[k] out of range *)

Inductive result (A : Type) : Type :=
| Ok (a : A)
| Err (e : error).
Arguments Ok {A} a.
Arguments Err {A} e.

Section Monad.
(** A computation yields a result or an error, together with a ghost log:
    the basis values that the two basis functions returned so far, in
    order.  Nothing in the code reads the log. *)
Context {L : Type}.

Definition M (A : Type) : Type := (list L * result A)%type.

Definition ret {A} (a : A) : M A := ([], Ok a).
Definition throw {A} (e : error) : M A := ([], Err e).
Definition emit (v : L) : M unit := ([v], Ok tt).

Definition bind {A B} (m : M A) (k : A -> M B) : M B :=
  match m with
  | (l, Ok a) => let (l', y) := k a in (l ++ l', y)
  | (l, Err e) => (l, Err e)
  end.

Definition value {A} (m : M A) : result A := snd m.
Definition basisLog {A} (m : M A) : list L := fst m.

(** [for (let j = 0; j < n; j++) body] runs [body] over [seq 0 n],
    threading the variables the body assigns. *)
Fixpoint forLoop {S} (idx : list nat) (body : nat -> S -> M S) (s : S) : M S :=
  match idx with
  | [] => ret s
  | j :: rest => bind (body j s) (forLoop rest body)
  end.
End Monad.

Arguments M : clear implicits.

Declare Scope comp_scope.
Delimit Scope comp_scope with comp.
Notation "x <- m ;; k" := (bind m (fun x => k))
(at level 61, m at next level, right associativity) : comp_scope.
Notation "m ;;; k" := (bind m (fun _ => k))
(at level 61, right associativity) : comp_scope.
#[local] Open Scope comp_scope.

(** The modulus of o1js's [Field] (the base field of the Pallas curve). *)
Definition pallas : Z :=
28948022309329048855892746252171976963363056481941560715954676764349967630337.

(** ** Primality certificates

    Checkers used to prove that [pallas] is prime: trial division for small
    numbers, and Pocklington's criterion, whose certificate lists prime
    divisors [q] of [N - 1] with a base [a] each. *)

Fixpoint trialDivision (fuel : nat) (d n : Z) : bool :=
  match fuel with
  | O => false
  | S fuel' =>
      if n <? d * d then true
      else if n mod d =? 0 then false
      else trialDivision fuel' (d + 1) n
  end.

Definition pocklingtonBase (N : Z) (qa : Z * Z) : bool :=
  let (q, a) := qa in
  ((N - 1) mod q =? 0)
  && (Zpow_mod a (N - 1) N =? 1)
  && (Z.gcd (Zpow_mod a ((N - 1) / q) N - 1) N =? 1).

Definition pocklingtonCheck (N : Z) (cert : list (Z * Z)) : bool :=
  let Q := fold_right (fun qa acc => Z.lcm (fst qa) acc) 1 cert in
  (1 <? N) && forallb (pocklingtonBase N) cert && (N <? (Q + 1) * (Q + 1)).

(** ** o1js [Field] constants *)

Section FieldArithmetic.
Variable p : Z.

Definition F : Type := Zmod p.

(** A computation over the field, logging basis values. *)
Definition Comp (A : Type) : Type := M F A.

(** [Field(x)] for a JavaScript number or bigint [x]: reduced into [0, p). *)
Definition Field (x : Z) : F := Zmod.of_Z p x.

Definition toBigInt (x : F) : Z := Zmod.to_Z x.

Definition add (x y : F) : F := Zmod.add x y.
Definition sub (x y : F) : F := Zmod.sub x y.
Definition mul (x y : F) : F := Zmod.mul x y.

(** [x.div(y)] multiplies by the inverse of [y] and throws when there is
    none, which for a prime modulus means [y = 0]. *)
Definition div (x y : F) : Comp F :=
  if Zmod.eqb y Zmod.zero then throw DivisionByZero
  else ret (Zmod.mdiv x y).

(** Comparisons with a number: the number is first made a field element,
    then the representatives are compared. *)
Definition lessThan (x : F) (y : Z) : bool := toBigInt x <? toBigInt (Field y).
Definition lessThanOrEqual (x : F) (y : Z) : bool := toBigInt x <=? toBigInt (Field y).
Definition greaterThanOrEqual (x : F) (y : Z) : bool := toBigInt (Field y) <=? toBigInt x.
End FieldArithmetic.

Arguments Field {p} x.
Arguments add {p} x y.
Arguments sub {p} x y.
Arguments mul {p} x y.
Arguments div {p} x y.
Arguments toBigInt {p} x.
Arguments lessThan {p} x y.
Arguments lessThanOrEqual {p} x y.
Arguments greaterThanOrEqual {p} x y.

(** [Number(b)] of a bigint: exact below 2^53, and it is only applied to a
    value below the length of a JavaScript string. *)
Definition Number (b : Z) : Z := b.

(** [s[k]] on a string: the character, or [undefined]. *)
Definition charAt (s : string) (k : Z) : option ascii :=
  if k <? 0 then None else String.get (Z.to_nat k) s.

Definition orUndefined {L A} (o : option A) : M L A :=
  match o with
  | Some a => ret a
  | None => throw UndefinedAccess
  end.

(** ** The module *)

Section Lagrange.
Variable p : Z.

(** [asciiToNumber] lives in [../util.ts]; it maps a character to its
    numeric code and is taken as given. *)
Variable asciiToNumber : ascii -> Z.

(** One turn of the [for] loop of [getLagrangeBasisAt]; the loop assigns
    [result]. *)
Definition basisBody (i : nat) (interpolatingSet : list (F p)) (r : F p)
    (j : nat) (result : F p) : Comp p (F p) :=
  if negb (i =? j)%nat then
    xj <- orUndefined (nth_error interpolatingSet j) ;;
    xi <- orUndefined (nth_error interpolatingSet i) ;;
    div (mul result (sub r xj)) (sub xi xj)
  else ret result.

(** [getLagrangeBasisAt(i, interpolatingSet, r)] *)
Definition getLagrangeBasisAt (i : nat) (interpolatingSet : list (F p)) (r : F p)
  : Comp p (F p) :=
  result <- forLoop (seq 0 (List.length interpolatingSet))
                    (basisBody i interpolatingSet r) (Field 1) ;;
  emit result ;;;
  ret result.

(** [getNextLagrangeBasisPolynomialAtInput(i, n, r, previousLagrangeBasis)]

    [i] and [n] are JavaScript numbers.  They are taken as integers, and
    [i - 1], [n - 1] and [-1 * (n - i)] are computed exactly: that is what the
    code computes when [i] and [n] are integers between 0 and 2^53, which
    covers every string or array length; above 2^53 the code rounds.  The
    first test, [i < 1], is exact for every number. *)
Definition getNextLagrangeBasisPolynomialAtInput
    (i n : Z) (r previousLagrangeBasis : F p) : Comp p (F p) :=
  if i <? 1 then throw InvalidIndexError
  else if greaterThanOrEqual r 0 && lessThanOrEqual r (n - 1)
  then throw DomainPointError
  else
    q <- div (mul (mul previousLagrangeBasis (sub r (Field (i - 1))))
                  (Field (-1 * (n - i))))
             (sub r (Field i)) ;;
    next <- div q (Field i) ;;
    emit next ;;;
    ret next.

(** One turn of the [for] loop of [getFastUnivariateLagrange]; the loop
    assigns [result] and [currentLagrangeBasis]. *)
Definition sweepBody (message : string) (n : nat) (r : F p)
    (i : nat) (st : F p * F p) : Comp p (F p * F p) :=
  let '(result, currentLagrangeBasis) := st in
  c <- orUndefined (charAt message (Z.of_nat i)) ;;
  let coefficient := Field (asciiToNumber c) in
  let result := add result (mul coefficient currentLagrangeBasis) in
  if Z.of_nat i <? Z.of_nat n - 1 then
    next <- getNextLagrangeBasisPolynomialAtInput
              (Z.of_nat i + 1) (Z.of_nat n) r currentLagrangeBasis ;;
    ret (result, next)
  else ret (result, currentLagrangeBasis).

(** [getFastUnivariateLagrange(message, r)] *)
Definition getFastUnivariateLagrange (message : string) (r : F p) : Comp p (F p) :=
  let n := String.length message in
  if (n =? 0)%nat then throw EmptyMessageError
  else if lessThan r (Z.of_nat n) then
    let index := Number (toBigInt r) in
    c <- orUndefined (charAt message index) ;;
    ret (Field (asciiToNumber c))
  else
    let interpolatingSet := map (fun index => Field (Z.of_nat index)) (seq 0 n) in
    currentLagrangeBasis <- getLagrangeBasisAt 0 interpolatingSet r ;;
    final <- forLoop (seq 0 n) (sweepBody message n r)
                     (Field 0, currentLagrangeBasis) ;;
    ret (fst final).
End Lagrange.

Arguments basisBody {p} i interpolatingSet r j result.
Arguments getLagrangeBasisAt {p} i interpolatingSet r.
Arguments getNextLagrangeBasisPolynomialAtInput {p} i n r previousLagrangeBasis.
Arguments sweepBody {p} asciiToNumber message n r i st.
Arguments getFastUnivariateLagrange {p} asciiToNumber message r.

(** Modelled from the spec: [asciiToNumber] of [../util.ts], which is not
    among the sources; the spec's scenarios give "A" the code 65 and "Z" the
    code 90.  Used for concrete runs only: the properties hold for any
    encoder. *)
Definition charCode (c : ascii) : Z := Z.of_nat (nat_of_ascii c).

(** The error behaviour of the recurrence step on one input, read literally:
    the index error exactly when [i < 1]; for [i >= 1] the domain error
    exactly when the representative of [r] is in [0, n-1]; a normal return in
    every other case. *)
Definition stepErrorsAsStated {p : Z} (i n : Z) (r previous : F p) : Prop :=
  let out := value (getNextLagrangeBasisPolynomialAtInput i n r previous) in
  (out = Err InvalidIndexError <-> i < 1) /\
  (1 <= i -> (out = Err DomainPointError <-> 0 <= toBigInt r <= n - 1)) /\
  (1 <= i -> ~ (0 <= toBigInt r <= n - 1) -> exists v, out = Ok v).

(** ** The reference definition

    The quadratic definition the evaluator is compared with, written from
    its formula: P(r) = sum over i of c_i * L_i(r), where
    L_i(r) = product over j <> i of (r - j) / (i - j), all in the field. *)

Section Reference.
Variable p : Z.
Variable asciiToNumber : ascii -> Z.

Definition bigsum (f : nat -> F p) (l : list nat) : F p :=
  fold_right (fun i acc => add (f i) acc) (Field 0) l.

Definition bigprod (f : nat -> F p) (l : list nat) : F p :=
  fold_right (fun j acc => mul (f j) acc) (Field 1) l.

(** The indices [j < n] with [j <> i]. *)
Definition others (n i : nat) : list nat :=
  filter (fun j => negb (j =? i)%nat) (seq 0 n).

Definition referenceBasis (n : nat) (r : F p) (i : nat) : F p :=
  bigprod (fun j => Zmod.mdiv (sub r (Field (Z.of_nat j)))
                              (sub (Field (Z.of_nat i)) (Field (Z.of_nat j))))
          (others n i).

(** The coefficient c_i: the field element of the code of the i-th symbol. *)
Definition coefficientAt (message : string) (i : nat) : F p :=
  match String.get i message with
  | Some c => Field (asciiToNumber c)
  | None => Field 0
  end.

(** The sum of a list of field elements. *)
Definition total (l : list (F p)) : F p := fold_right add (Field 0) l.

Definition referenceP (message : string) (r : F p) : F p :=
  let n := String.length message in
  bigsum (fun i => mul (coefficientAt message i) (referenceBasis n r i)) (seq 0 n).
End Reference.

Arguments bigsum {p} f l.
Arguments bigprod {p} f l.
Arguments total {p} l.
Arguments referenceBasis {p} n r i.
Arguments coefficientAt {p} asciiToNumber message i.
Arguments referenceP {p} asciiToNumber message r.

(** ** The interpolation points, and the basis on arbitrary points *)

(** [Array.from({ length: n }, (_, index) => Field(index))], the points
    0, ..., n-1 that [getFastUnivariateLagrange] hands to [getLagrangeBasisAt]. *)
Definition interpolatingSetOf (p : Z) (n : nat) : list (F p) :=
  map (fun index => Field (Z.of_nat index)) (seq 0 n).

(** The basis polynomial as the documentation of [getLagrangeBasisAt] defines
    it, on any list of points x_0, ..., x_(n-1):
    L_i(x) = product over j <> i of (x - x_j) / (x_i - x_j). *)
Definition basisOn {p : Z} (interpolatingSet : list (F p)) (r : F p) (i : nat) : F p :=
  bigprod (fun j => Zmod.mdiv (sub r (nth j interpolatingSet (Field 0)))
                              (sub (nth i interpolatingSet (Field 0))
                                   (nth j interpolatingSet (Field 0))))
          (others (List.length interpolatingSet) i).

(** * Proofs *)

Example scenario_AB_0 :
  getFastUnivariateLagrange charCode "AB" (@Field pallas 0) = ([], Ok (Field 65)).
Proof. vm_compute. reflexivity. Qed.

Example scenario_AB_1 :
  getFastUnivariateLagrange charCode "AB" (@Field pallas 1) = ([], Ok (Field 66)).
Proof. vm_compute. reflexivity. Qed.

(** L_0(2) = -1 and L_1(2) = 2, so P(2) = 65 * (-1) + 66 * 2 = 67. *)
Example scenario_AB_2 :
  getFastUnivariateLagrange charCode "AB" (@Field pallas 2)
  = ([Field (-1); Field 2], Ok (Field 67)).
Proof. vm_compute. reflexivity. Qed.

Example scenario_Z_5 :
  getFastUnivariateLagrange charCode "Z" (@Field pallas 5) = ([Field 1], Ok (Field 90)).
Proof. vm_compute. reflexivity. Qed.

Example scenario_AB_reference :
  referenceP charCode "AB" (@Field pallas 2) = Field 67.
Proof. vm_compute. reflexivity. Qed.

(** ** The modulus is prime *)

Lemma trialDivision_sound (fuel : nat) (d n : Z) :
  2 <= d -> (forall k, 2 <= k < d -> ~ (k | n)) ->
  trialDivision fuel d n = true ->
  forall k, 2 <= k -> k * k <= n -> ~ (k | n).
Proof.
  revert d. induction fuel as [|fuel IH]; intros d Hd Hlow H; [discriminate|].
  cbn [trialDivision] in H.
  destruct (Z.ltb_spec n (d * d)) as [Hsq|Hsq].
  - intros k Hk Hkk. apply Hlow. nia.
  - destruct (Z.eqb_spec (n mod d) 0) as [E|E]; [discriminate|].
    apply (IH (d + 1)); [lia| |exact H].
    intros k Hk. destruct (Z.eq_dec k d) as [->|Hne].
    + intros Hdiv. apply E. apply Z.mod_divide; [lia|exact Hdiv].
    + apply Hlow. lia.
Qed.

Lemma trialDivision_prime (fuel : nat) (n : Z) :
  1 < n -> trialDivision fuel 2 n = true -> Z.prime n.
Proof.
  intros Hn H. split; [exact Hn|].
  pose proof (trialDivision_sound fuel 2 n ltac:(lia) ltac:(intros; lia) H) as Hs.
  intros m Hm [c Hc].
  assert (Hc1 : 1 < c) by nia.
  destruct (Z.le_gt_cases (m * m) n) as [Hle|Hgt].
  - apply (Hs m); [lia|exact Hle|]. exists c. exact Hc.
  - apply (Hs c); [lia|nia|]. exists m. lia.
Qed.

(** Powers that are 1 modulo m *)

Lemma pow_one_mul (m a k j : Z) :
  0 <= k -> 0 <= j -> a ^ k mod m = 1 mod m -> a ^ (k * j) mod m = 1 mod m.
Proof.
  intros Hk Hj H. rewrite Z.pow_mul_r by assumption.
  rewrite <- Z.mod_pow_l, H, Z.mod_pow_l, Z.pow_1_l by exact Hj. reflexivity.
Qed.

Lemma N2Z_gcd (a b : N) : Z.of_N (N.gcd a b) = Z.gcd (Z.of_N a) (Z.of_N b).
Proof. destruct a, b; reflexivity. Qed.

Lemma pow_one_gcd (m a k j : Z) :
  0 < k -> 0 <= j -> a ^ k mod m = 1 mod m -> a ^ j mod m = 1 mod m ->
  a ^ Z.gcd k j mod m = 1 mod m.
Proof.
  intros Hk Hj H1 H2.
  destruct (N.gcd_bezout_pos (Z.to_N k) (Z.to_N j)) as [u [v E]]; [lia|].
  apply (f_equal Z.of_N) in E.
  rewrite N2Z.inj_add, !N2Z.inj_mul, N2Z_gcd, !Z2N.id in E by lia.
  assert (Hu : 0 <= Z.of_N u) by lia. assert (Hv : 0 <= Z.of_N v) by lia.
  pose proof (Z.gcd_nonneg k j) as Hg.
  set (g := Z.gcd k j) in *. set (U := Z.of_N u) in *. set (V := Z.of_N v) in *.
  assert (A : a ^ (k * U) mod m = 1 mod m).
  { apply pow_one_mul; [lia|exact Hu|exact H1]. }
  assert (B : a ^ (j * V) mod m = 1 mod m).
  { apply pow_one_mul; assumption. }
  replace (k * U) with (g + j * V) in A by lia.
  rewrite Z.pow_add_r in A by nia.
  rewrite <- Zmult_mod_idemp_r, B, Zmult_mod_idemp_r, Z.mul_1_r in A.
  exact A.
Qed.

(** One base of a certificate: every prime divisor of N is 1 modulo q. *)
Lemma pocklingtonBase_divides (N q a P : Z) :
  1 < N -> Z.prime q -> pocklingtonBase N (q, a) = true ->
  Z.prime P -> (P | N) -> (q | P - 1).
Proof.
  intros HN Hq Hc HP HPN. unfold pocklingtonBase in Hc.
  apply andb_prop in Hc. destruct Hc as [Hc Hgcd].
  apply andb_prop in Hc. destruct Hc as [Hdiv Hpow].
  apply Z.eqb_eq in Hdiv, Hpow, Hgcd.
  pose proof (Z.prime_ge_2 q Hq) as Hq2. pose proof (Z.prime_ge_2 P HP) as HP2.
  rewrite Zpow_mod_correct in Hpow, Hgcd by lia.
  apply Z.mod_divide in Hdiv; [|lia].
  destruct Hdiv as [M HM].
  assert (HMv : (N - 1) / q = M) by (rewrite HM; apply Z.div_mul; lia).
  rewrite HMv in Hgcd.
  assert (HM1 : 1 <= M) by nia.
  (* a^(N-1) is 1 modulo P *)
  assert (A1 : a ^ (N - 1) mod P = 1 mod P).
  { rewrite <- (Z.mod_mod_divide (a ^ (N - 1)) N P HPN). rewrite Hpow. reflexivity. }
  (* so a is not 0 modulo P *)
  assert (Ha : a mod P <> 0).
  { intros E. rewrite <- Z.mod_pow_l, E, Z.pow_0_l, Z.mod_0_l, Z.mod_1_l in A1; lia. }
  assert (A2 : a ^ (P - 1) mod P = 1 mod P).
  { rewrite (Z.fermat_nz P a HP Ha). symmetry. apply Z.mod_1_l. lia. }
  pose proof (pow_one_gcd P a (N - 1) (P - 1) ltac:(lia) ltac:(lia) A1 A2) as A3.
  set (g := Z.gcd (N - 1) (P - 1)) in *.
  assert (Hg1 : (g | N - 1)) by apply Z.gcd_divide_l.
  assert (Hg2 : (g | P - 1)) by apply Z.gcd_divide_r.
  assert (Hg0 : 0 < g).
  { pose proof (Z.gcd_nonneg (N - 1) (P - 1)). fold g in H.
    destruct (Z.eq_dec g 0) as [E|]; [|lia].
    rewrite E in Hg1. apply Z.divide_0_l in Hg1. lia. }
  destruct (Z.BoolSpec_divide q g) as [D|D].
  - eapply Z.divide_trans; eassumption.
  - exfalso.
    apply (Z.coprime_prime_l q g Hq) in D.
    assert (HgM : (g | M)).
    { apply (Z.gauss g q M); [rewrite Z.mul_comm, <- HM; exact Hg1|].
      rewrite Z.gcd_comm. exact D. }
    destruct HgM as [t Ht].
    assert (Ht0 : 0 <= t) by nia.
    assert (A4 : a ^ M mod P = 1 mod P).
    { rewrite Ht, Z.mul_comm. apply pow_one_mul; [lia|exact Ht0|exact A3]. }
    assert (D1 : (P | a ^ M mod N - 1)).
    { apply Z.mod_divide; [lia|].
      rewrite <- Zminus_mod_idemp_l, (Z.mod_mod_divide _ N P HPN), A4.
      rewrite Zminus_mod_idemp_l. reflexivity. }
    pose proof (Z.gcd_greatest _ _ _ D1 HPN) as D2.
    rewrite Hgcd in D2. apply Z.divide_1_r_nonneg in D2; lia.
Qed.

Lemma pocklingtonBases_divide (N P : Z) (cert : list (Z * Z)) :
  1 < N -> (forall q a, In (q, a) cert -> Z.prime q) ->
  forallb (pocklingtonBase N) cert = true ->
  Z.prime P -> (P | N) ->
  (fold_right (fun qa acc => Z.lcm (fst qa) acc) 1 cert | P - 1).
Proof.
  intros HN Hq Hc HP HPN. induction cert as [|[q a] cert IH].
  - apply Z.divide_1_l.
  - cbn [forallb] in Hc. apply andb_prop in Hc. destruct Hc as [Hc1 Hc2].
    cbn [fold_right fst]. apply Z.lcm_least.
    + apply (pocklingtonBase_divides N q a P); try assumption.
      apply (Hq q a). left. reflexivity.
    + apply IH; [|exact Hc2]. intros q' a' Hin. apply (Hq q' a'). right. exact Hin.
Qed.

(** Every positive divisor of N is 1 modulo Q. *)
Lemma pocklington_divisors (N Q : Z) :
  1 < N ->
  (forall P, Z.prime P -> (P | N) -> (Q | P - 1)) ->
  forall (k : nat) (d : Z), 0 < d <= Z.of_nat k -> (d | N) -> (Q | d - 1).
Proof.
  intros HN HP k. induction k as [|k IH]; intros d Hd HdN; [lia|].
  destruct (Z.eq_dec d 1) as [->|Hd1]; [apply Z.divide_0_r|].
  destruct (prime_dec d) as [Hpr|Hnp].
  - apply HP; [apply prime_alt; exact Hpr|exact HdN].
  - destruct (not_prime_divide d ltac:(lia) Hnp) as [n [Hn [c Hc]]].
    assert (Hc1 : 1 < c < d) by nia.
    assert (Qn : (Q | n - 1)).
    { apply IH; [lia|]. apply Z.divide_trans with d; [exists c; lia|exact HdN]. }
    assert (Qc : (Q | c - 1)).
    { apply IH; [lia|]. apply Z.divide_trans with d; [exists n; lia|exact HdN]. }
    replace (d - 1) with ((c - 1) * n + (n - 1)) by lia.
    apply Z.divide_add_r; [apply Z.divide_mul_l; exact Qc|exact Qn].
Qed.

Theorem pocklington (N : Z) (cert : list (Z * Z)) :
  (forall q a, In (q, a) cert -> Z.prime q) ->
  pocklingtonCheck N cert = true -> Z.prime N.
Proof.
  intros Hq Hc. unfold pocklingtonCheck in Hc.
  apply andb_prop in Hc. destruct Hc as [Hc Hsq].
  apply andb_prop in Hc. destruct Hc as [HN Hb].
  apply Z.ltb_lt in HN, Hsq.
  set (Q := fold_right (fun qa acc => Z.lcm (fst qa) acc) 1 cert) in *.
  assert (HQ : 0 <= Q).
  { subst Q. destruct cert as [|qa cert]; cbn [fold_right]; [lia|apply Z.lcm_nonneg]. }
  assert (Hdiv : forall d, 1 < d -> (d | N) -> Q + 1 <= d).
  { intros d Hd HdN.
    pose proof (pocklington_divisors N Q HN
                  (fun P HP HPN => pocklingtonBases_divide N P cert HN Hq Hb HP HPN)
                  (Z.to_nat d) d ltac:(lia) HdN) as D.
    destruct (Z.eq_dec Q 0) as [E|E]; [lia|].
    apply Z.divide_pos_le in D; lia. }
  split; [exact HN|]. intros n Hn [c Hc].
  assert (Hc1 : 1 < c) by nia.
  pose proof (Hdiv n ltac:(lia) ltac:(exists c; exact Hc)).
  pose proof (Hdiv c Hc1 ltac:(exists n; lia)).
  nia.
Qed.

Lemma prime_772231 : Z.prime 772231.
Proof. apply (trialDivision_prime 1000%nat); [lia|vm_compute; reflexivity]. Qed.

Lemma prime_413527 : Z.prime 413527.
Proof. apply (trialDivision_prime 1000%nat); [lia|vm_compute; reflexivity]. Qed.

Lemma prime_41655379 : Z.prime 41655379.
Proof. apply (trialDivision_prime (Z.to_nat 7000)); [lia|vm_compute; reflexivity]. Qed.

Lemma prime_325086459374267 : Z.prime 325086459374267.
Proof.
  apply (pocklington _ [(772231, 2); (413527, 2)]); [|vm_compute; reflexivity].
  intros q a [E|[E|[]]]; injection E as <- _.
  - exact prime_772231.
  - exact prime_413527.
Qed.

Lemma prime_22160661629 : Z.prime 22160661629.
Proof.
  apply (pocklington _ [(41655379, 2)]); [|vm_compute; reflexivity].
  intros q a [E|[]]; injection E as <- _. exact prime_41655379.
Qed.

Lemma prime_8999194758858563409123804352480028797519453 :
  Z.prime 8999194758858563409123804352480028797519453.
Proof.
  apply (pocklington _ [(325086459374267, 2); (22160661629, 2)]);
    [|vm_compute; reflexivity].
  intros q a [E|[E|[]]]; injection E as <- _.
  - exact prime_325086459374267.
  - exact prime_22160661629.
Qed.

Theorem pallas_prime : Z.prime pallas.
Proof.
  apply (pocklington _ [(8999194758858563409123804352480028797519453, 2)]);
    [|vm_compute; reflexivity].
  intros q a [E|[]]; injection E as <- _.
  exact prime_8999194758858563409123804352480028797519453.
Qed.

(** ** The monad *)

Section MonadFacts.
Context {L : Type}.

Lemma bind_ret_l {A B} (a : A) (k : A -> M L B) : bind (ret a) k = k a.
Proof. unfold bind, ret. destruct (k a). reflexivity. Qed.

Lemma bind_ok {A B} (l : list L) (a : A) (k : A -> M L B) :
  bind (l, Ok a) k = (l ++ fst (k a), snd (k a)).
Proof. unfold bind. destruct (k a). reflexivity. Qed.

Lemma bind_err {A B} (l : list L) (e : error) (k : A -> M L B) :
  bind (l, Err e) k = (l, Err e).
Proof. reflexivity. Qed.

Lemma bind_ok_ret {A B} (l : list L) (a : A) (g : A -> B) :
  bind (l, Ok a) (fun x => ret (g x)) = (l, Ok (g a)).
Proof. unfold bind, ret. rewrite app_nil_r. reflexivity. Qed.

Lemma bind_emit_ret {A} (v : L) (a : A) : bind (emit v) (fun _ => ret a) = ([v], Ok a).
Proof. reflexivity. Qed.

Lemma forLoop_nil {S} (body : nat -> S -> M L S) (s : S) : forLoop [] body s = ret s.
Proof. reflexivity. Qed.

Lemma forLoop_cons {S} (j : nat) (rest : list nat) (body : nat -> S -> M L S) (s : S) :
  forLoop (j :: rest) body s = bind (body j s) (forLoop rest body).
Proof. reflexivity. Qed.

(** A loop whose body never fails in a given way does not fail that way. *)
Lemma forLoop_never {S} (e : error) (idx : list nat) (body : nat -> S -> M L S) :
  (forall j s, In j idx -> snd (body j s) <> Err e) ->
  forall s, snd (forLoop idx body s) <> Err e.
Proof.
  induction idx as [|j rest IH]; intros Hb s.
  - discriminate.
  - rewrite forLoop_cons.
    pose proof (Hb j s (or_introl eq_refl)) as Hj.
    destruct (body j s) as [l [s'|e']]; cbn [snd] in Hj.
    + rewrite bind_ok. cbn [snd]. apply IH. intros k t Hk. apply Hb. right. exact Hk.
    + rewrite bind_err. exact Hj.
Qed.
End MonadFacts.

(** ** Strings *)

Lemma get_in_range (s : string) (k : nat) :
  (k < String.length s)%nat -> exists c, String.get k s = Some c.
Proof.
  revert k. induction s as [|c s IH]; intros k H; cbn in H; [lia|].
  destruct k as [|k]; cbn.
  - exists c. reflexivity.
  - apply IH. lia.
Qed.

Lemma charAt_index (s : string) (k : nat) : charAt s (Z.of_nat k) = String.get k s.
Proof.
  unfold charAt. destruct (Z.ltb_spec (Z.of_nat k) 0); [lia|].
  rewrite Nat2Z.id. reflexivity.
Qed.

Lemma charAt_in_range (s : string) (k : Z) :
  0 <= k < Z.of_nat (String.length s) -> exists c, charAt s k = Some c.
Proof.
  intros H. rewrite <- (Z2Nat.id k) by lia. rewrite charAt_index.
  apply get_in_range. lia.
Qed.

(** ** Representatives and comparisons, for any positive modulus *)

Section Representatives.
Variable p : Z.
Hypothesis p_pos : 0 < p.

Lemma toBigInt_bounds (x : F p) : 0 <= toBigInt x < p.
Proof. apply Zmod.unsigned_pos_bound. exact p_pos. Qed.

Lemma toBigInt_Field (x : Z) : toBigInt (@Field p x) = x mod p.
Proof. apply Zmod.unsigned_of_Z. Qed.

Lemma lessThan_small (r : F p) (n : Z) :
  0 <= n < p -> lessThan r n = (toBigInt r <? n).
Proof.
  intros H. unfold lessThan. rewrite toBigInt_Field, Z.mod_small by exact H.
  reflexivity.
Qed.

Lemma lessThanOrEqual_small (r : F p) (n : Z) :
  0 <= n < p -> lessThanOrEqual r n = (toBigInt r <=? n).
Proof.
  intros H. unfold lessThanOrEqual. rewrite toBigInt_Field, Z.mod_small by exact H.
  reflexivity.
Qed.

Lemma greaterThanOrEqual_0 (r : F p) : greaterThanOrEqual r 0 = true.
Proof.
  unfold greaterThanOrEqual. rewrite toBigInt_Field, Z.mod_0_l by lia.
  apply Z.leb_le. apply toBigInt_bounds.
Qed.

(** When the guard [r.lessThan(n)] holds, the representative is below [n],
    whatever the modulus. *)
Lemma lessThan_true_bound (r : F p) (n : Z) :
  0 <= n -> lessThan r n = true -> 0 <= toBigInt r < n.
Proof.
  intros Hn H. unfold lessThan in H. apply Z.ltb_lt in H.
  rewrite toBigInt_Field in H.
  pose proof (toBigInt_bounds r). pose proof (Z.mod_le n p Hn p_pos). lia.
Qed.
End Representatives.

(** ** Field facts *)

(** Exposes the library's operations under the wrappers, for [ring] and
    [field]. *)
Ltac fnorm :=
  change (@Field ?q 0) with (@Zmod.zero q);
  change (@Field ?q 1) with (@Zmod.one q);
  unfold add, sub, mul;
  try match goal with
      | |- @eq _ ?a ?b => let T := type of a in change (@eq T a b)
      end.
Ltac fring := fnorm; ring.

Section FieldFacts.
Variable p : Z.
Hypothesis p_prime : Z.prime p.

Lemma F_field_theory :
  @field_theory (F p) Zmod.zero Zmod.one Zmod.add Zmod.mul Zmod.sub Zmod.opp
                Zmod.mdiv Zmod.inv eq.
Proof. exact (Zmod.field_theory p p_prime). Qed.

Add Field ZmodField : (Zmod.field_theory p p_prime).
Add Field FField : F_field_theory.

Lemma p_ge_2 : 2 <= p.
Proof. exact (Z.prime_ge_2 p p_prime). Qed.

Lemma toBigInt_range (x : F p) : 0 <= toBigInt x < p.
Proof. apply Zmod.unsigned_pos_bound. pose proof p_ge_2. lia. Qed.

Lemma toBigInt_Field_small (x : Z) : 0 <= x < p -> toBigInt (@Field p x) = x.
Proof.
  intros Hx. unfold toBigInt, Field.
  rewrite Zmod.unsigned_of_Z. apply Z.mod_small. exact Hx.
Qed.

Lemma Field_inj_small (x y : Z) :
  0 <= x < p -> 0 <= y < p -> @Field p x = Field y -> x = y.
Proof.
  intros Hx Hy E. apply (f_equal toBigInt) in E.
  rewrite !toBigInt_Field_small in E; assumption.
Qed.

Lemma sub_nonzero (x y : F p) : x <> y -> sub x y <> Zmod.zero.
Proof. intros N E. apply N. apply Zmod.sub_eq_0. exact E. Qed.

(** A point whose representative exceeds [j] differs from the domain point [j]. *)
Lemma above_ne_Field (r : F p) (j : Z) : 0 <= j < toBigInt r -> r <> Field j.
Proof.
  intros Hj E. subst r. unfold toBigInt, Field in Hj.
  rewrite Zmod.unsigned_of_Z in Hj.
  pose proof p_ge_2. pose proof (Z.mod_le j p). lia.
Qed.

Lemma Field_nonzero (j : Z) : 0 < j < p -> @Field p j <> Zmod.zero.
Proof.
  intros Hj E. change (@Zmod.zero p) with (@Field p 0) in E.
  apply Field_inj_small in E; lia.
Qed.

Lemma Field_succ (j : nat) :
  @Field p (Z.of_nat (S j)) = add (Field (Z.of_nat j)) Zmod.one.
Proof.
  unfold Field, add. rewrite Nat2Z.inj_succ. unfold Z.succ.
  rewrite Zmod.of_Z_add, Zmod.of_Z_1. reflexivity.
Qed.

Lemma div_nonzero (x y : F p) : y <> Zmod.zero -> div x y = ret (Zmod.mdiv x y).
Proof.
  intros N. unfold div. destruct (Zmod.eqb_spec y Zmod.zero); [contradiction|reflexivity].
Qed.

(** ** Sums and products over index lists *)

Lemma bigprod_nil (f : nat -> F p) : bigprod f [] = Zmod.one.
Proof. reflexivity. Qed.

Lemma bigsum_nil (f : nat -> F p) : bigsum f [] = Zmod.zero.
Proof. reflexivity. Qed.

Lemma bigprod_cons (f : nat -> F p) (j : nat) (l : list nat) :
  bigprod f (j :: l) = mul (f j) (bigprod f l).
Proof. reflexivity. Qed.

Lemma bigsum_cons (f : nat -> F p) (j : nat) (l : list nat) :
  bigsum f (j :: l) = add (f j) (bigsum f l).
Proof. reflexivity. Qed.

Lemma bigprod_app (f : nat -> F p) (l1 l2 : list nat) :
  bigprod f (l1 ++ l2) = mul (bigprod f l1) (bigprod f l2).
Proof.
  induction l1 as [|j l1 IH]; cbn [app].
  - rewrite bigprod_nil. fring.
  - rewrite !bigprod_cons, IH. fring.
Qed.

Lemma bigsum_app (f : nat -> F p) (l1 l2 : list nat) :
  bigsum f (l1 ++ l2) = add (bigsum f l1) (bigsum f l2).
Proof.
  induction l1 as [|j l1 IH]; cbn [app].
  - rewrite bigsum_nil. fring.
  - rewrite !bigsum_cons, IH. fring.
Qed.

Lemma bigprod_snoc (f : nat -> F p) (l : list nat) (j : nat) :
  bigprod f (l ++ [j]) = mul (bigprod f l) (f j).
Proof. rewrite bigprod_app, bigprod_cons, bigprod_nil. fring. Qed.

Lemma bigsum_snoc (f : nat -> F p) (l : list nat) (j : nat) :
  bigsum f (l ++ [j]) = add (bigsum f l) (f j).
Proof. rewrite bigsum_app, bigsum_cons, bigsum_nil. fring. Qed.

Lemma bigprod_ext_in (f g : nat -> F p) (l : list nat) :
  (forall j, In j l -> f j = g j) -> bigprod f l = bigprod g l.
Proof.
  induction l as [|j l IH]; intros E; [reflexivity|].
  rewrite !bigprod_cons, E, IH; [reflexivity| |left; reflexivity].
  intros k Hk. apply E. right. exact Hk.
Qed.

Lemma bigsum_ext_in (f g : nat -> F p) (l : list nat) :
  (forall j, In j l -> f j = g j) -> bigsum f l = bigsum g l.
Proof.
  induction l as [|j l IH]; intros E; [reflexivity|].
  rewrite !bigsum_cons, E, IH; [reflexivity| |left; reflexivity].
  intros k Hk. apply E. right. exact Hk.
Qed.

Lemma bigprod_map (f : nat -> F p) (g : nat -> nat) (l : list nat) :
  bigprod f (map g l) = bigprod (fun j => f (g j)) l.
Proof.
  induction l as [|j l IH]; [reflexivity|].
  cbn [map]. rewrite !bigprod_cons, IH. reflexivity.
Qed.

Lemma bigprod_nonzero (f : nat -> F p) (l : list nat) :
  (forall j, In j l -> f j <> Zmod.zero) -> bigprod f l <> Zmod.zero.
Proof.
  induction l as [|j l IH]; intros N.
  - rewrite bigprod_nil. apply Zmod.one_neq_zero. pose proof p_ge_2. lia.
  - rewrite bigprod_cons. unfold mul. intros E.
    apply (Zmod.mul_0_iff_prime p_prime) in E. destruct E as [E|E].
    + exact (N j (or_introl eq_refl) E).
    + apply IH; [|exact E]. intros k Hk. apply N. right. exact Hk.
Qed.

(** A product of quotients is the quotient of the products. *)
Lemma bigprod_mdiv (f g : nat -> F p) (l : list nat) :
  (forall j, In j l -> g j <> Zmod.zero) ->
  bigprod (fun j => Zmod.mdiv (f j) (g j)) l = Zmod.mdiv (bigprod f l) (bigprod g l).
Proof.
  induction l as [|j l IH]; intros N.
  - rewrite !bigprod_nil, Zmod.mdiv_1_r. reflexivity.
  - rewrite !bigprod_cons, IH by (intros k Hk; apply N; right; exact Hk).
    assert (Hj : g j <> Zmod.zero) by (apply N; left; reflexivity).
    assert (Hl : bigprod g l <> Zmod.zero).
    { apply bigprod_nonzero. intros k Hk. apply N. right. exact Hk. }
    fnorm. field. split; assumption.
Qed.

Lemma bigsum_linear (f g : nat -> F p) (c : F p) (l : list nat) :
  bigsum (fun i => sub (f i) (mul c (g i))) l = sub (bigsum f l) (mul c (bigsum g l)).
Proof.
  induction l as [|j l IH].
  - rewrite !bigsum_nil. fring.
  - rewrite !bigsum_cons, IH. fring.
Qed.

(** ** The index lists *)

Lemma others_S_lt (n i : nat) : (i < n)%nat -> others (S n) i = others n i ++ [n].
Proof.
  intros H. unfold others. rewrite seq_S, filter_app. cbn [filter Nat.add].
  destruct (Nat.eqb_spec n i); [lia|reflexivity].
Qed.

Lemma others_out (n i : nat) : (n <= i)%nat -> others n i = seq 0 n.
Proof.
  intros H. unfold others. apply forallb_filter_id. apply forallb_forall.
  intros j Hj. apply in_seq in Hj. destruct (Nat.eqb_spec j i); [lia|reflexivity].
Qed.

Lemma others_S_eq (n : nat) : others (S n) n = seq 0 n.
Proof.
  unfold others. rewrite seq_S, filter_app. cbn [filter Nat.add].
  rewrite Nat.eqb_refl. cbn [negb]. rewrite app_nil_r.
  apply (others_out n n). lia.
Qed.

Lemma In_others (n i j : nat) : In j (others n i) <-> (j < n)%nat /\ j <> i.
Proof.
  unfold others. rewrite filter_In, in_seq.
  destruct (Nat.eqb_spec j i); cbn [negb]; intuition (try lia; try discriminate).
Qed.

Lemma bigprod_others (f : nat -> F p) (n i : nat) :
  (i < n)%nat -> mul (bigprod f (others n i)) (f i) = bigprod f (seq 0 n).
Proof.
  induction n as [|n IH]; intros H; [lia|].
  rewrite seq_S, bigprod_snoc. cbn [Nat.add].
  destruct (Nat.eq_dec i n) as [->|Hne].
  - rewrite others_S_eq. reflexivity.
  - rewrite others_S_lt, bigprod_snoc, <- IH by lia. fring.
Qed.

(** ** The basis polynomials on the domain 0, ..., n-1 *)

Lemma Field_index_inj (i j : nat) :
  Z.of_nat i < p -> Z.of_nat j < p ->
  @Field p (Z.of_nat i) = Field (Z.of_nat j) -> i = j.
Proof.
  intros Hi Hj E. apply Field_inj_small in E; lia.
Qed.

Lemma denominator_nonzero (n i j : nat) :
  Z.of_nat n <= p -> Z.of_nat i < p -> In j (others n i) ->
  sub (@Field p (Z.of_nat i)) (Field (Z.of_nat j)) <> Zmod.zero.
Proof.
  intros Hn Hi Hj. apply In_others in Hj. apply sub_nonzero.
  intros E. apply Field_index_inj in E; lia.
Qed.

Lemma referenceBasis_quotient (n i : nat) (r : F p) :
  Z.of_nat n <= p -> Z.of_nat i < p ->
  referenceBasis n r i
  = Zmod.mdiv (bigprod (fun j => sub r (Field (Z.of_nat j))) (others n i))
              (bigprod (fun j => sub (Field (Z.of_nat i)) (Field (Z.of_nat j)))
                       (others n i)).
Proof.
  intros Hn Hi. unfold referenceBasis. apply bigprod_mdiv.
  intros j Hj. eapply denominator_nonzero; eassumption.
Qed.

Lemma denominators_nonzero (n i : nat) :
  Z.of_nat n <= p -> Z.of_nat i < p ->
  bigprod (fun j => sub (@Field p (Z.of_nat i)) (Field (Z.of_nat j))) (others n i)
  <> Zmod.zero.
Proof.
  intros Hn Hi. apply bigprod_nonzero.
  intros j Hj. eapply denominator_nonzero; eassumption.
Qed.

(** i! as a product: the factors of the denominator of L_i below i. *)
Lemma factorial_shift (i : nat) :
  bigprod (fun j => sub (@Field p (Z.of_nat (S i))) (Field (Z.of_nat j))) (seq 0 (S i))
  = mul (Field (Z.of_nat (S i)))
        (bigprod (fun j => sub (Field (Z.of_nat i)) (Field (Z.of_nat j))) (seq 0 i)).
Proof.
  cbn [seq]. rewrite <- seq_shift, bigprod_cons, bigprod_map.
  rewrite (bigprod_ext_in _ (fun j => sub (Field (Z.of_nat i)) (Field (Z.of_nat j)))).
  - change (Z.of_nat 0) with 0. fring.
  - intros j _. rewrite !Field_succ. fring.
Qed.

(** The denominators of consecutive basis polynomials. *)
Lemma denominator_step (n i : nat) :
  (S i < n)%nat ->
  mul (bigprod (fun j => sub (@Field p (Z.of_nat (S i))) (Field (Z.of_nat j)))
               (others n (S i)))
      (sub (Field (Z.of_nat (S i))) (Field (Z.of_nat n)))
  = mul (bigprod (fun j => sub (Field (Z.of_nat i)) (Field (Z.of_nat j))) (others n i))
        (Field (Z.of_nat (S i))).
Proof.
  induction n as [|n IH]; intros H; [lia|].
  destruct (Nat.eq_dec (S i) n) as [E|Hne].
  - subst n. rewrite others_S_eq, (others_S_lt (S i) i), bigprod_snoc by lia.
    rewrite others_S_eq, factorial_shift, !Field_succ. fring.
  - rewrite (others_S_lt n (S i)), (others_S_lt n i), !bigprod_snoc by lia.
    transitivity
      (mul (mul (bigprod (fun j => sub (@Field p (Z.of_nat (S i))) (Field (Z.of_nat j)))
                         (others n (S i)))
                (sub (Field (Z.of_nat (S i))) (Field (Z.of_nat n))))
           (sub (Field (Z.of_nat (S i))) (Field (Z.of_nat (S n))))).
    + fring.
    + rewrite IH by lia. rewrite !Field_succ. fring.
Qed.

(** Equation 2.10 of Thaler, on the reference definition: L_(i+1)(r) from
    L_i(r), for r off the domain. *)
Lemma referenceBasis_step (n i : nat) (r : F p) :
  (S i < n)%nat -> Z.of_nat n <= toBigInt r ->
  referenceBasis n r (S i)
  = Zmod.mdiv
      (Zmod.mdiv (mul (mul (referenceBasis n r i) (sub r (Field (Z.of_nat i))))
                      (sub (Field (Z.of_nat (S i))) (Field (Z.of_nat n))))
                 (sub r (Field (Z.of_nat (S i)))))
      (Field (Z.of_nat (S i))).
Proof.
  intros Hi Hr. pose proof (toBigInt_range r) as Hrp.
  rewrite !referenceBasis_quotient by lia.
  pose proof (bigprod_others (fun j => sub r (Field (Z.of_nat j))) n (S i) Hi) as H1.
  rewrite <- (bigprod_others (fun j => sub r (Field (Z.of_nat j))) n i) in H1 by lia.
  pose proof (denominator_step n i Hi) as H2.
  pose proof (denominators_nonzero n i ltac:(lia) ltac:(lia)) as HD.
  pose proof (denominators_nonzero n (S i) ltac:(lia) ltac:(lia)) as HD'.
  assert (Hx : sub r (Field (Z.of_nat (S i))) <> Zmod.zero).
  { apply sub_nonzero, above_ne_Field. lia. }
  assert (Hs : @Field p (Z.of_nat (S i)) <> Zmod.zero).
  { apply Field_nonzero. lia. }
  set (N' := bigprod (fun j => sub r _) (others n (S i))) in *.
  set (D' := bigprod (fun j => sub (Field _) _) (others n (S i))) in *.
  set (N := bigprod (fun j => sub r _) (others n i)) in *.
  set (D := bigprod (fun j => sub (Field _) _) (others n i)) in *.
  set (x := sub r (Field (Z.of_nat (S i)))) in *.
  set (y := sub r (Field (Z.of_nat i))) in *.
  set (c := sub (Field (Z.of_nat (S i))) (Field (Z.of_nat n))) in *.
  set (s := Field (Z.of_nat (S i))) in *.
  clearbody N' D' N D x y c s.
  assert (EN : N' = Zmod.mdiv (mul N y) x).
  { rewrite <- H1. fnorm. field. exact Hx. }
  assert (Ec : c = Zmod.mdiv (mul D s) D').
  { rewrite <- H2. fnorm. field. exact HD'. }
  rewrite EN, Ec. fnorm. field. repeat split; assumption.
Qed.

(** ** Partition of unity of the reference basis *)

Lemma referenceBasis_S_lt (n i : nat) (r : F p) :
  (i < n)%nat ->
  referenceBasis (S n) r i
  = mul (referenceBasis n r i)
        (Zmod.mdiv (sub r (Field (Z.of_nat n)))
                   (sub (Field (Z.of_nat i)) (Field (Z.of_nat n)))).
Proof.
  intros H. unfold referenceBasis. rewrite others_S_lt, bigprod_snoc by lia.
  reflexivity.
Qed.

Lemma referenceBasis_S_last (n : nat) (r : F p) :
  referenceBasis (S n) r n
  = bigprod (fun j => Zmod.mdiv (sub r (Field (Z.of_nat j)))
                                (sub (Field (Z.of_nat n)) (Field (Z.of_nat j))))
            (seq 0 n).
Proof. unfold referenceBasis. rewrite others_S_eq. reflexivity. Qed.

(** L_i(r) (r - i) and L_i(n) (n - i) have the same denominator. *)
Lemma referenceBasis_two_points (n i : nat) (r : F p) :
  (i < n)%nat -> Z.of_nat n < p ->
  mul (referenceBasis n r i) (sub r (Field (Z.of_nat i)))
  = mul (mul (referenceBasis (S n) r n) (referenceBasis n (Field (Z.of_nat n)) i))
        (sub (Field (Z.of_nat n)) (Field (Z.of_nat i))).
Proof.
  intros Hi Hn.
  rewrite referenceBasis_S_last, bigprod_mdiv.
  2:{ intros j Hj. apply in_seq in Hj. apply sub_nonzero.
      intros E. apply Field_index_inj in E; lia. }
  rewrite !referenceBasis_quotient by lia.
  assert (HV : bigprod (fun j => sub (@Field p (Z.of_nat n)) (Field (Z.of_nat j)))
                       (seq 0 n) <> Zmod.zero).
  { apply bigprod_nonzero. intros j Hj. apply in_seq in Hj. apply sub_nonzero.
    intros E. apply Field_index_inj in E; lia. }
  rewrite <- (bigprod_others (fun j => sub (@Field p (Z.of_nat n)) (Field (Z.of_nat j)))
                             n i Hi) in *.
  rewrite <- (bigprod_others (fun j => sub r (Field (Z.of_nat j))) n i Hi).
  pose proof (denominators_nonzero n i ltac:(lia) ltac:(lia)) as HD.
  set (Nr := bigprod (fun j => sub r _) (others n i)) in *.
  set (Nn := bigprod (fun j => sub (Field (Z.of_nat n)) _) (others n i)) in *.
  set (D := bigprod (fun j => sub (Field (Z.of_nat i)) _) (others n i)) in *.
  set (yr := sub r (Field (Z.of_nat i))) in *.
  set (yn := sub (Field (Z.of_nat n)) (Field (Z.of_nat i))) in *.
  clearbody Nr Nn D yr yn.
  assert (HNn : Nn <> Zmod.zero /\ yn <> Zmod.zero).
  { split; intros E; apply HV; rewrite E; fring. }
  destruct HNn as [HNn Hyn].
  fnorm. field. repeat split; assumption.
Qed.

Lemma referenceBasis_grow (n i : nat) (r : F p) :
  (i < n)%nat -> Z.of_nat n < p ->
  referenceBasis (S n) r i
  = sub (referenceBasis n r i)
        (mul (referenceBasis (S n) r n) (referenceBasis n (Field (Z.of_nat n)) i)).
Proof.
  intros Hi Hn. rewrite referenceBasis_S_lt by exact Hi.
  pose proof (referenceBasis_two_points n i r Hi Hn) as K.
  assert (Hd : sub (@Field p (Z.of_nat n)) (Field (Z.of_nat i)) <> Zmod.zero).
  { apply sub_nonzero. intros E. apply Field_index_inj in E; lia. }
  assert (Hd' : sub (@Field p (Z.of_nat i)) (Field (Z.of_nat n)) <> Zmod.zero).
  { apply sub_nonzero. intros E. apply Field_index_inj in E; lia. }
  set (a := referenceBasis n r i) in *.
  set (b := referenceBasis n (Field (Z.of_nat n)) i) in *.
  set (m := referenceBasis (S n) r n) in *.
  set (fi := Field (Z.of_nat i)) in *.
  set (fn := Field (Z.of_nat n)) in *.
  clearbody a b m fi fn.
  assert (E : mul m b = Zmod.mdiv (mul a (sub r fi)) (sub fn fi)).
  { rewrite K. fnorm. field. exact Hd. }
  rewrite E. fnorm. field. split; assumption.
Qed.

(** The basis values on a domain of n >= 1 points sum to 1, at every point. *)
Lemma partition_of_unity (m : nat) (r : F p) :
  Z.of_nat (S m) <= p ->
  bigsum (referenceBasis (S m) r) (seq 0 (S m)) = Zmod.one.
Proof.
  revert r. induction m as [|m IH]; intros r Hp.
  - cbn [seq]. rewrite bigsum_cons, bigsum_nil.
    unfold referenceBasis, others. cbn [seq filter Nat.eqb negb].
    rewrite bigprod_nil. fring.
  - rewrite seq_S, bigsum_snoc. cbn [Nat.add].
    rewrite (bigsum_ext_in _
      (fun i => sub (referenceBasis (S m) r i)
                    (mul (referenceBasis (S (S m)) r (S m))
                         (referenceBasis (S m) (Field (Z.of_nat (S m))) i)))).
    2:{ intros i Hi. apply in_seq in Hi. apply referenceBasis_grow; lia. }
    rewrite bigsum_linear, !IH by lia. fring.
Qed.

(** ** The recurrence step *)

Lemma guard_outside (r : F p) (n : Z) :
  1 <= n -> n <= toBigInt r ->
  greaterThanOrEqual r 0 && lessThanOrEqual r (n - 1) = false.
Proof.
  intros Hn Hr. pose proof (toBigInt_range r). pose proof p_ge_2.
  rewrite lessThanOrEqual_small by lia.
  apply andb_false_intro2. apply Z.leb_gt. lia.
Qed.

Lemma getNext_run (i n : Z) (r prev : F p) :
  1 <= i <= n - 1 -> n <= toBigInt r ->
  getNextLagrangeBasisPolynomialAtInput i n r prev
  = (let v := Zmod.mdiv
                (Zmod.mdiv (mul (mul prev (sub r (Field (i - 1))))
                                (Field (-1 * (n - i))))
                           (sub r (Field i)))
                (Field i) in
     ([v], Ok v)).
Proof.
  intros Hi Hr. pose proof (toBigInt_range r) as Hrp.
  unfold getNextLagrangeBasisPolynomialAtInput.
  destruct (Z.ltb_spec i 1); [lia|].
  rewrite guard_outside by lia.
  rewrite div_nonzero by (apply sub_nonzero, above_ne_Field; lia).
  rewrite bind_ret_l.
  rewrite div_nonzero by (apply Field_nonzero; lia).
  rewrite bind_ret_l, bind_emit_ret. reflexivity.
Qed.

Lemma Field_negated_gap (n i : nat) :
  @Field p (-1 * (Z.of_nat n - (Z.of_nat i + 1)))
  = sub (Field (Z.of_nat (S i))) (Field (Z.of_nat n)).
Proof.
  unfold Field, sub. rewrite <- Zmod.of_Z_sub. f_equal. lia.
Qed.

(** Fed L_i(r), the step returns L_(i+1)(r). *)
Lemma getNext_reference (n i : nat) (r : F p) :
  (S i < n)%nat -> Z.of_nat n <= toBigInt r ->
  getNextLagrangeBasisPolynomialAtInput (Z.of_nat i + 1) (Z.of_nat n) r
                                        (referenceBasis n r i)
  = ([referenceBasis n r (S i)], Ok (referenceBasis n r (S i))).
Proof.
  intros Hi Hr. rewrite getNext_run by lia. cbv zeta.
  rewrite (referenceBasis_step n i r Hi Hr).
  rewrite Field_negated_gap.
  replace (Z.of_nat i + 1 - 1) with (Z.of_nat i) by lia.
  replace (Z.of_nat i + 1) with (Z.of_nat (S i)) by lia.
  reflexivity.
Qed.

(** The value of the step as one quotient. *)
Lemma getNext_formula (i n : Z) (r prev : F p) :
  1 <= i <= n - 1 -> n <= toBigInt r ->
  value (getNextLagrangeBasisPolynomialAtInput i n r prev)
  = Ok (Zmod.mdiv (mul (mul prev (sub r (Field (i - 1)))) (Field (- (n - i))))
                  (mul (sub r (Field i)) (Field i))).
Proof.
  intros Hi Hr. pose proof (toBigInt_range r) as Hrp.
  rewrite getNext_run by lia. cbv zeta. unfold value. cbn [snd]. f_equal.
  replace (-1 * (n - i)) with (- (n - i)) by lia.
  assert (Hx : sub r (Field i) <> Zmod.zero).
  { apply sub_nonzero, above_ne_Field. lia. }
  assert (Hs : @Field p i <> Zmod.zero).
  { apply Field_nonzero. lia. }
  fnorm. field. split; assumption.
Qed.

(** ** The base case *)

Lemma domain_lookup (n j : nat) :
  (j < n)%nat ->
  nth_error (map (fun index => @Field p (Z.of_nat index)) (seq 0 n)) j
  = Some (Field (Z.of_nat j)).
Proof.
  intros H. rewrite nth_error_map, nth_error_seq.
  destruct (Nat.ltb_spec j n); [reflexivity|lia].
Qed.

Lemma basisLoop_run (n : nat) (r : F p) (k a : nat) (acc : F p) :
  (a + k <= n)%nat -> Z.of_nat n <= p -> (1 <= n)%nat ->
  forLoop (seq a k)
          (basisBody 0 (map (fun index => Field (Z.of_nat index)) (seq 0 n)) r) acc
  = ret (mul acc
             (bigprod (fun j => Zmod.mdiv (sub r (Field (Z.of_nat j)))
                                          (sub (Field (Z.of_nat 0%nat)) (Field (Z.of_nat j))))
                      (filter (fun j => negb (j =? 0)%nat) (seq a k)))).
Proof.
  revert a acc. induction k as [|k IH]; intros a acc Ha Hn Hn1.
  - cbn [seq filter]. rewrite forLoop_nil, bigprod_nil. f_equal. fring.
  - cbn [seq filter]. rewrite forLoop_cons. unfold basisBody at 1.
    rewrite (Nat.eqb_sym 0 a).
    destruct (Nat.eqb_spec a 0) as [->|Hne]; cbn [negb].
    + rewrite bind_ret_l, IH by lia. reflexivity.
    + rewrite !domain_lookup by lia. cbn [orUndefined]. rewrite !bind_ret_l.
      rewrite div_nonzero.
      2:{ apply sub_nonzero. intros E. apply Field_index_inj in E; lia. }
      rewrite bind_ret_l, IH by lia. rewrite bigprod_cons.
      f_equal. unfold Zmod.mdiv. fring.
Qed.

Lemma getLagrangeBasisAt_run (n : nat) (r : F p) :
  (1 <= n)%nat -> Z.of_nat n <= p ->
  getLagrangeBasisAt 0 (map (fun index => Field (Z.of_nat index)) (seq 0 n)) r
  = ([referenceBasis n r 0], Ok (referenceBasis n r 0)).
Proof.
  intros Hn1 Hn. unfold getLagrangeBasisAt.
  rewrite length_map, length_seq.
  rewrite (basisLoop_run n r n 0) by lia.
  rewrite bind_ret_l.
  replace (mul (Field 1) _) with (referenceBasis n r 0).
  - apply bind_emit_ret.
  - unfold referenceBasis, others. fring.
Qed.

(** ** The sweep *)

Variable asciiToNumber : ascii -> Z.

Lemma coefficientAt_charAt (message : string) (i : nat) (c : ascii) :
  charAt message (Z.of_nat i) = Some c ->
  coefficientAt asciiToNumber message i = @Field p (asciiToNumber c).
Proof.
  rewrite charAt_index. unfold coefficientAt. intros ->. reflexivity.
Qed.

Lemma sweep_run (message : string) (r : F p) (k a : nat) (acc : F p) :
  (a + S k = String.length message)%nat ->
  Z.of_nat (String.length message) <= toBigInt r ->
  forLoop (seq a (S k))
          (sweepBody asciiToNumber message (String.length message) r)
          (acc, referenceBasis (String.length message) r a)
  = (map (referenceBasis (String.length message) r) (seq (S a) k),
     Ok (add acc
             (bigsum (fun i => mul (coefficientAt asciiToNumber message i)
                                   (referenceBasis (String.length message) r i))
                     (seq a (S k))),
         referenceBasis (String.length message) r (String.length message - 1))).
Proof.
  set (n := String.length message).
  revert a acc. induction k as [|k IH]; intros a acc Ha Hr.
  - cbn [seq map]. rewrite forLoop_cons. unfold sweepBody at 1.
    destruct (charAt_in_range message (Z.of_nat a)) as [c Hc]; [fold n; lia|].
    rewrite Hc. cbn [orUndefined]. rewrite bind_ret_l.
    destruct (Z.ltb_spec (Z.of_nat a) (Z.of_nat n - 1)); [lia|].
    rewrite bind_ret_l, forLoop_nil.
    rewrite bigsum_cons, bigsum_nil, (coefficientAt_charAt message a c Hc).
    replace (n - 1)%nat with a by lia.
    unfold ret. do 3 f_equal. fring.
  - cbn [seq map]. rewrite forLoop_cons. unfold sweepBody at 1.
    destruct (charAt_in_range message (Z.of_nat a)) as [c Hc]; [fold n; lia|].
    rewrite Hc. cbn [orUndefined]. rewrite bind_ret_l.
    destruct (Z.ltb_spec (Z.of_nat a) (Z.of_nat n - 1)); [|lia].
    rewrite getNext_reference by lia.
    rewrite bind_ok_ret, bind_ok.
    change (S a :: seq (S (S a)) k) with (seq (S a) (S k)).
    rewrite IH by lia. cbn [fst snd app].
    rewrite (bigsum_cons _ a), (coefficientAt_charAt message a c Hc).
    do 3 f_equal. fring.
Qed.

(** Off the domain, the evaluator produces the n reference basis values in
    order and returns the reference value. *)
Lemma evaluate_sweep (message : string) (r : F p) :
  (1 <= String.length message)%nat ->
  Z.of_nat (String.length message) <= toBigInt r ->
  getFastUnivariateLagrange asciiToNumber message r
  = (map (referenceBasis (String.length message) r) (seq 0 (String.length message)),
     Ok (referenceP asciiToNumber message r)).
Proof.
  intros Hn Hr. pose proof (toBigInt_range r) as Hrp. pose proof p_ge_2.
  unfold getFastUnivariateLagrange, referenceP.
  destruct (Nat.eqb_spec (String.length message) 0); [lia|].
  rewrite lessThan_small by lia.
  destruct (Z.ltb_spec (toBigInt r) (Z.of_nat (String.length message))); [lia|].
  rewrite getLagrangeBasisAt_run by lia.
  rewrite bind_ok. cbv beta.
  assert (E : exists k, String.length message = S k).
  { exists (String.length message - 1)%nat. lia. }
  destruct E as [k E].
  replace (seq 0 (String.length message)) with (seq 0 (S k)) by (rewrite E; reflexivity).
  rewrite (sweep_run message r k 0) by lia.
  rewrite bind_ok_ret. cbn [fst snd seq map app].
  f_equal. f_equal. fring.
Qed.

Lemma total_map (f : nat -> F p) (l : list nat) : total (map f l) = bigsum f l.
Proof.
  induction l as [|j l IH]; [reflexivity|].
  cbn [map]. rewrite bigsum_cons, <- IH. reflexivity.
Qed.

End FieldFacts.

(** ** The guard and the domain short-circuit *)

Lemma guard_spec (p : Z) (r : F p) (n : Z) :
  1 <= n <= p ->
  greaterThanOrEqual r 0 && lessThanOrEqual r (n - 1) = (toBigInt r <=? n - 1).
Proof.
  intros Hn.
  rewrite greaterThanOrEqual_0, lessThanOrEqual_small by lia.
  reflexivity.
Qed.

Lemma length_nonempty (message : string) :
  message <> EmptyString -> (1 <= String.length message)%nat.
Proof. destruct message; [congruence|cbn; lia]. Qed.

Lemma evaluate_short_circuit (p : Z) (asciiToNumber : ascii -> Z)
    (message : string) (r : F p) :
  0 < p -> (1 <= String.length message)%nat ->
  lessThan r (Z.of_nat (String.length message)) = true ->
  exists c, String.get (Z.to_nat (toBigInt r)) message = Some c /\
            getFastUnivariateLagrange asciiToNumber message r
            = ([], Ok (Field (asciiToNumber c))).
Proof.
  intros Hp Hn Hg.
  pose proof (lessThan_true_bound p Hp r _ (Nat2Z.is_nonneg _) Hg) as Hr.
  destruct (get_in_range message (Z.to_nat (toBigInt r))) as [c Hc]; [lia|].
  exists c. split; [exact Hc|].
  unfold getFastUnivariateLagrange.
  destruct (Nat.eqb_spec (String.length message) 0); [lia|].
  rewrite Hg. unfold Number, charAt.
  destruct (Z.ltb_spec (toBigInt r) 0); [lia|].
  rewrite Hc. reflexivity.
Qed.

Lemma evaluate_below_length (p : Z) (asciiToNumber : ascii -> Z)
    (message : string) (r : F p) :
  (1 <= String.length message)%nat ->
  Z.of_nat (String.length message) < p ->
  toBigInt r < Z.of_nat (String.length message) ->
  exists c, String.get (Z.to_nat (toBigInt r)) message = Some c /\
            getFastUnivariateLagrange asciiToNumber message r
            = ([], Ok (Field (asciiToNumber c))).
Proof.
  intros Hn Hp Hr. apply evaluate_short_circuit; [lia|exact Hn|].
  rewrite lessThan_small by lia. apply Z.ltb_lt. exact Hr.
Qed.

(** ** No access outside the message or the domain *)

Lemma bind_never {L A B} (e : error) (m : M L A) (k : A -> M L B) :
  snd m <> Err e -> (forall a, snd (k a) <> Err e) -> snd (bind m k) <> Err e.
Proof.
  intros Hm Hk. destruct m as [l [a|e']]; cbn [snd] in Hm.
  - rewrite bind_ok. cbn [snd]. apply Hk.
  - rewrite bind_err. cbn [snd]. congruence.
Qed.

Lemma div_never_undefined (p : Z) (x y : F p) : snd (div x y) <> Err UndefinedAccess.
Proof. unfold div. destruct (Zmod.eqb y Zmod.zero); discriminate. Qed.

Lemma getNext_never_undefined (p : Z) (i n : Z) (r prev : F p) :
  snd (getNextLagrangeBasisPolynomialAtInput i n r prev) <> Err UndefinedAccess.
Proof.
  unfold getNextLagrangeBasisPolynomialAtInput.
  destruct (i <? 1); [discriminate|].
  destruct (greaterThanOrEqual r 0 && lessThanOrEqual r (n - 1)); [discriminate|].
  apply bind_never; [apply div_never_undefined|]. intros q.
  apply bind_never; [apply div_never_undefined|]. intros next.
  discriminate.
Qed.

Lemma basisBody_never_undefined (p : Z) (n : nat) (r : F p) (j : nat) (acc : F p) :
  (j < n)%nat ->
  snd (basisBody 0 (map (fun index => Field (Z.of_nat index)) (seq 0 n)) r j acc)
  <> Err UndefinedAccess.
Proof.
  intros Hj. unfold basisBody.
  destruct (negb (0 =? j)%nat); [|discriminate].
  rewrite !domain_lookup by lia. cbn [orUndefined]. rewrite !bind_ret_l.
  apply div_never_undefined.
Qed.

Lemma sweepBody_never_undefined (p : Z) (asciiToNumber : ascii -> Z)
    (message : string) (r : F p) (i : nat) (st : F p * F p) :
  (i < String.length message)%nat ->
  snd (sweepBody asciiToNumber message (String.length message) r i st)
  <> Err UndefinedAccess.
Proof.
  intros Hi. unfold sweepBody. destruct st as [result cur].
  destruct (charAt_in_range message (Z.of_nat i)) as [c Hc]; [lia|].
  rewrite Hc. cbn [orUndefined]. rewrite bind_ret_l.
  destruct (Z.of_nat i <? Z.of_nat (String.length message) - 1); [|discriminate].
  apply bind_never; [apply getNext_never_undefined|]. discriminate.
Qed.

Lemma evaluate_never_undefined (p : Z) (asciiToNumber : ascii -> Z)
    (message : string) (r : F p) :
  0 < p ->
  value (getFastUnivariateLagrange asciiToNumber message r) <> Err UndefinedAccess.
Proof.
  intros Hp. unfold value.
  destruct (Nat.eq_dec (String.length message) 0) as [E|Hn].
  - unfold getFastUnivariateLagrange. rewrite E. discriminate.
  - destruct (lessThan r (Z.of_nat (String.length message))) eqn:Hg.
    + destruct (evaluate_short_circuit p asciiToNumber message r Hp ltac:(lia) Hg)
        as [c [_ ->]]. discriminate.
    + unfold getFastUnivariateLagrange.
      destruct (Nat.eqb_spec (String.length message) 0); [lia|].
      rewrite Hg. apply bind_never.
      * unfold getLagrangeBasisAt. apply bind_never; [|discriminate].
        rewrite length_map, length_seq. apply forLoop_never.
        intros j s Hj. apply in_seq in Hj. apply basisBody_never_undefined. lia.
      * intros cur. apply bind_never; [|discriminate].
        apply forLoop_never. intros i s Hi. apply in_seq in Hi.
        apply sweepBody_never_undefined. lia.
Qed.

(** * The properties *)

(** C1. For a non-empty message and a field element r whose representative is
    outside [0, n), n the length of the message, the evaluator returns the
    value of the quadratic reference definition
    P(r) = sum over i of c_i * product over j <> i of (r - j) / (i - j). *)
Theorem C1_evaluate_is_reference (p : Z) (asciiToNumber : ascii -> Z)
    (message : string) (r : F p) :
  Z.prime p -> message <> EmptyString ->
  ~ (0 <= toBigInt r < Z.of_nat (String.length message)) ->
  value (getFastUnivariateLagrange asciiToNumber message r)
  = Ok (referenceP asciiToNumber message r).
Proof.
  intros Hp Hm Hr.
  pose proof (Z.prime_ge_2 p Hp) as Hp2.
  pose proof (toBigInt_bounds p ltac:(lia) r) as Hb.
  rewrite (evaluate_sweep p Hp asciiToNumber message r).
  - reflexivity.
  - apply length_nonempty. exact Hm.
  - lia.
Qed.

Lemma C1_witness :
  Z.prime pallas /\ "AB"%string <> EmptyString /\
  ~ (0 <= toBigInt (@Field pallas 2) < Z.of_nat (String.length "AB")) /\
  value (getFastUnivariateLagrange charCode "AB" (@Field pallas 2))
  = Ok (referenceP charCode "AB" (Field 2)).
Proof.
  assert (H1 : "AB"%string <> EmptyString) by discriminate.
  assert (H2 : ~ (0 <= toBigInt (@Field pallas 2) < Z.of_nat (String.length "AB")))
    by (vm_compute; intros [_ H]; discriminate H).
  refine (conj pallas_prime (conj H1 (conj H2 _))).
  exact (C1_evaluate_is_reference pallas charCode "AB" (Field 2) pallas_prime H1 H2).
Defined.

(** C2. For a message of length n >= 1 and a field element r whose
    representative is below n, the evaluator returns the field element of the
    code of the symbol at index r, and no basis value is computed (the ghost
    log is empty).  The length is below the modulus, as every JavaScript
    string length is below o1js's modulus. *)
Theorem C2_short_circuit (p : Z) (asciiToNumber : ascii -> Z)
    (message : string) (r : F p) :
  (1 <= String.length message)%nat ->
  Z.of_nat (String.length message) < p ->
  toBigInt r < Z.of_nat (String.length message) ->
  exists c, String.get (Z.to_nat (toBigInt r)) message = Some c /\
            getFastUnivariateLagrange asciiToNumber message r
            = ([], Ok (Field (asciiToNumber c))).
Proof.
  intros Hn Hp Hr. apply evaluate_below_length; assumption.
Qed.

Lemma C2_witness :
  exists c, String.get (Z.to_nat (toBigInt (@Field pallas 1))) "AB" = Some c /\
            getFastUnivariateLagrange charCode "AB" (@Field pallas 1)
            = ([], Ok (Field (charCode c))).
Proof.
  apply (C2_short_circuit pallas charCode "AB" (Field 1)).
  - cbn. lia.
  - reflexivity.
  - reflexivity.
Defined.

(** C3. For a non-empty message and any field element r the evaluator returns
    a field element: no division by zero, no index error and no domain error
    from the recurrence (each of them would surface as [Err]). *)
Theorem C3_no_error (p : Z) (asciiToNumber : ascii -> Z)
    (message : string) (r : F p) :
  Z.prime p -> message <> EmptyString ->
  Z.of_nat (String.length message) < p ->
  exists v, value (getFastUnivariateLagrange asciiToNumber message r) = Ok v.
Proof.
  intros Hp Hm Hn.
  pose proof (length_nonempty message Hm) as Hl.
  destruct (Z.lt_ge_cases (toBigInt r) (Z.of_nat (String.length message))) as [Hr|Hr].
  - destruct (evaluate_below_length p asciiToNumber message r Hl Hn Hr) as [c [_ E]].
    exists (Field (asciiToNumber c)). rewrite E. reflexivity.
  - exists (referenceP asciiToNumber message r).
    rewrite (evaluate_sweep p Hp asciiToNumber message r Hl Hr). reflexivity.
Qed.

Lemma C3_witness :
  exists v, value (getFastUnivariateLagrange charCode "AB" (@Field pallas 200)) = Ok v.
Proof.
  apply (C3_no_error pallas charCode "AB" (Field 200) pallas_prime).
  - discriminate.
  - reflexivity.
Defined.

(** C4. For a domain size n (a length, hence at most 2^53, where the numbers
    i - 1 and n - i of the code are exact), 1 <= i <= n - 1, r with
    representative outside [0, n-1] and any [previous], the recurrence step
    returns previous * (r - (i-1)) * (-(n-i)) / ((r - i) * i);
    when [previous] is L_(i-1)(r), that value is L_i(r). *)
Theorem C4_step_formula (p : Z) (i n : Z) (r previous : F p) :
  Z.prime p -> 1 <= i -> i <= n - 1 -> n <= 2 ^ 53 ->
  ~ (0 <= toBigInt r <= n - 1) ->
  value (getNextLagrangeBasisPolynomialAtInput i n r previous)
  = Ok (Zmod.mdiv (mul (mul previous (sub r (Field (i - 1)))) (Field (- (n - i))))
                  (mul (sub r (Field i)) (Field i)))
  /\ (previous = referenceBasis (Z.to_nat n) r (Z.to_nat (i - 1)) ->
      value (getNextLagrangeBasisPolynomialAtInput i n r previous)
      = Ok (referenceBasis (Z.to_nat n) r (Z.to_nat i))).
Proof.
  intros Hp Hi1 Hin _ Hr.
  pose proof (Z.prime_ge_2 p Hp) as Hp2.
  pose proof (toBigInt_bounds p ltac:(lia) r) as Hb.
  split.
  - apply getNext_formula; [exact Hp|lia|lia].
  - intros ->.
    pose proof (getNext_reference p Hp (Z.to_nat n) (Z.to_nat (i - 1)) r) as H.
    replace (Z.of_nat (Z.to_nat (i - 1)) + 1) with i in H by lia.
    replace (S (Z.to_nat (i - 1))) with (Z.to_nat i) in H by lia.
    rewrite Z2Nat.id in H by lia.
    rewrite H by lia. reflexivity.
Qed.

Lemma C4_witness :
  value (getNextLagrangeBasisPolynomialAtInput 1 2 (@Field pallas 2) (Field (-1)))
  = Ok (Zmod.mdiv (mul (mul (Field (-1)) (sub (Field 2) (Field (1 - 1))))
                       (Field (- (2 - 1))))
                  (mul (sub (Field 2) (Field 1)) (Field 1)))
  /\ (@Field pallas (-1) = referenceBasis (Z.to_nat 2) (Field 2) (Z.to_nat (1 - 1)) ->
      value (getNextLagrangeBasisPolynomialAtInput 1 2 (@Field pallas 2) (Field (-1)))
      = Ok (referenceBasis (Z.to_nat 2) (Field 2) (Z.to_nat 1))).
Proof.
  apply (C4_step_formula pallas 1 2 (Field 2) (Field (-1)) pallas_prime).
  - lia.
  - lia.
  - vm_compute. discriminate.
  - vm_compute. intros [_ H]. apply H. reflexivity.
Defined.

(** ** The outcomes of the recurrence step *)

Lemma getNext_cases (p : Z) (i n : Z) (r previous : F p) :
  1 <= n <= p ->
  value (getNextLagrangeBasisPolynomialAtInput i n r previous)
  = if i <? 1 then Err InvalidIndexError
    else if toBigInt r <=? n - 1 then Err DomainPointError
    else if Zmod.eqb (sub r (Field i)) Zmod.zero then Err DivisionByZero
    else if Zmod.eqb (@Field p i) Zmod.zero then Err DivisionByZero
    else Ok (Zmod.mdiv
               (Zmod.mdiv (mul (mul previous (sub r (Field (i - 1))))
                               (Field (-1 * (n - i))))
                          (sub r (Field i)))
               (Field i)).
Proof.
  intros Hn. unfold getNextLagrangeBasisPolynomialAtInput.
  destruct (i <? 1); [reflexivity|].
  rewrite guard_spec by exact Hn.
  destruct (toBigInt r <=? n - 1); [reflexivity|].
  unfold div at 1.
  destruct (Zmod.eqb (sub r (Field i)) Zmod.zero); [reflexivity|].
  rewrite bind_ret_l. unfold div.
  destruct (Zmod.eqb (@Field p i) Zmod.zero); [reflexivity|].
  rewrite bind_ret_l, bind_emit_ret. reflexivity.
Qed.

(** On the o1js field: index 5 on a domain of size 3, at r = 5. *)
Example step_divides_by_zero :
  getNextLagrangeBasisPolynomialAtInput 5 3 (@Field pallas 5) (Field 1)
  = ([], Err DivisionByZero).
Proof. vm_compute. reflexivity. Qed.

(** C5, as stated, fails: with i = 5, n = 3 and r = 5 neither precondition
    is violated, and the step raises the division error of the field. *)
Lemma C5_counterexample : ~ stepErrorsAsStated 5 3 (@Field pallas 5) (Field 1).
Proof.
  unfold stepErrorsAsStated. intros [_ [_ H]].
  destruct H as [v Hv].
  - lia.
  - vm_compute. intros [_ H]. apply H. reflexivity.
  - vm_compute in Hv. discriminate Hv.
Qed.

(** The index error is raised exactly when [i < 1], whatever [n] is. *)
Lemma getNext_index_error (p : Z) (i n : Z) (r previous : F p) :
  value (getNextLagrangeBasisPolynomialAtInput i n r previous) = Err InvalidIndexError
  <-> i < 1.
Proof.
  unfold value, getNextLagrangeBasisPolynomialAtInput.
  destruct (Z.ltb_spec i 1) as [Hi|Hi]; [split; [intros _; exact Hi|reflexivity]|].
  split; [|lia]. intros H. exfalso. revert H.
  destruct (greaterThanOrEqual r 0 && lessThanOrEqual r (n - 1)); [discriminate|].
  unfold div at 1.
  destruct (Zmod.eqb (sub r (Field i)) Zmod.zero); [discriminate|].
  rewrite bind_ret_l. unfold div.
  destruct (Zmod.eqb (@Field p i) Zmod.zero); [discriminate|].
  rewrite bind_ret_l, bind_emit_ret. discriminate.
Qed.

(** C5, amended. In o1js's field, for integer arguments:
    - the step raises the index error exactly when i < 1, whatever n is;
    - for a domain size 1 <= n <= 2^53 and i >= 1, it raises the domain error
      exactly when the representative of r is in [0, n-1];
    - for 1 <= n <= 2^53, 1 <= i <= 2^53 and r outside [0, n-1], it raises
      the field's division error when r = i in the field and returns normally
      otherwise;
    - in particular it returns normally whenever 1 <= i <= n - 1 <= 2^53 - 1
      and r is outside [0, n-1]. *)
Theorem C5_step_errors (i n : Z) (r previous : F pallas) :
  let out := value (getNextLagrangeBasisPolynomialAtInput i n r previous) in
  (out = Err InvalidIndexError <-> i < 1) /\
  (1 <= n <= 2 ^ 53 -> 1 <= i ->
     (out = Err DomainPointError <-> 0 <= toBigInt r <= n - 1)) /\
  (1 <= n <= 2 ^ 53 -> 1 <= i <= 2 ^ 53 -> ~ (0 <= toBigInt r <= n - 1) ->
     (r = Field i -> out = Err DivisionByZero) /\
     (r <> Field i -> exists v, out = Ok v)) /\
  (1 <= n <= 2 ^ 53 -> 1 <= i <= n - 1 -> ~ (0 <= toBigInt r <= n - 1) ->
     exists v, out = Ok v).
Proof.
  intros out.
  assert (Hbig : 2 ^ 53 < pallas) by (vm_compute; reflexivity).
  assert (Hpos : 0 < pallas) by (vm_compute; reflexivity).
  pose proof (toBigInt_bounds pallas Hpos r) as Hb.
  assert (Hsmall : forall k, 0 <= k <= 2 ^ 53 -> toBigInt (@Field pallas k) = k).
  { intros k Hk. apply toBigInt_Field_small. lia. }
  split; [apply getNext_index_error|].
  assert (Hcases : 1 <= n <= 2 ^ 53 -> 1 <= i ->
            out = if toBigInt r <=? n - 1 then Err DomainPointError
                  else if Zmod.eqb (sub r (Field i)) Zmod.zero then Err DivisionByZero
                  else if Zmod.eqb (@Field pallas i) Zmod.zero then Err DivisionByZero
                  else Ok (Zmod.mdiv
                             (Zmod.mdiv (mul (mul previous (sub r (Field (i - 1))))
                                             (Field (-1 * (n - i))))
                                        (sub r (Field i)))
                             (Field i))).
  { intros Hn Hi. subst out. rewrite getNext_cases by lia.
    destruct (Z.ltb_spec i 1); [lia|reflexivity]. }
  split; [|split].
  - intros Hn Hi. rewrite (Hcases Hn Hi).
    destruct (Z.leb_spec (toBigInt r) (n - 1)) as [Hr|Hr].
    + split; [intros _; lia|reflexivity].
    + split; [|lia]. intros H. exfalso. revert H.
      destruct (Zmod.eqb (sub r (Field i)) Zmod.zero); [discriminate|].
      destruct (Zmod.eqb (@Field pallas i) Zmod.zero); discriminate.
  - intros Hn Hi Hr. rewrite (Hcases Hn ltac:(lia)).
    destruct (Z.leb_spec (toBigInt r) (n - 1)) as [Hr'|Hr']; [lia|].
    assert (Hi0 : @Field pallas i <> Zmod.zero).
    { apply Field_nonzero. lia. }
    destruct (Zmod.eqb_spec (sub r (Field i)) Zmod.zero) as [E1|E1].
    + apply Zmod.sub_eq_0 in E1. split; [reflexivity|]. intros N. contradiction.
    + destruct (Zmod.eqb_spec (@Field pallas i) Zmod.zero) as [E2|_]; [contradiction|].
      split.
      * intros E. exfalso. apply E1. rewrite E. apply Zmod.sub_same.
      * intros _. eexists. reflexivity.
  - intros Hn Hi Hr. rewrite (Hcases Hn ltac:(lia)).
    destruct (Z.leb_spec (toBigInt r) (n - 1)) as [Hr'|Hr']; [lia|].
    assert (Hi0 : @Field pallas i <> Zmod.zero).
    { apply Field_nonzero. lia. }
    destruct (Zmod.eqb_spec (sub r (Field i)) Zmod.zero) as [E1|E1].
    + exfalso. apply Zmod.sub_eq_0 in E1. subst r.
      rewrite Hsmall in Hr' by lia. lia.
    + destruct (Zmod.eqb_spec (@Field pallas i) Zmod.zero) as [E2|_]; [contradiction|].
      eexists. reflexivity.
Qed.

(** The four parts of C5 at concrete arguments: i = 0; r = 2 inside [0, 2];
    i = 5 past the domain of size 3 at r = 5; and i = 1 at r = 9. *)
Lemma C5_witness :
  value (getNextLagrangeBasisPolynomialAtInput 0 3 (@Field pallas 9) (Field 1))
  = Err InvalidIndexError
  /\ value (getNextLagrangeBasisPolynomialAtInput 1 3 (@Field pallas 2) (Field 1))
     = Err DomainPointError
  /\ value (getNextLagrangeBasisPolynomialAtInput 5 3 (@Field pallas 5) (Field 1))
     = Err DivisionByZero
  /\ exists v, value (getNextLagrangeBasisPolynomialAtInput 1 3 (@Field pallas 9) (Field 1))
               = Ok v.
Proof.
  assert (Hn : 1 <= 3 <= 2 ^ 53) by (split; vm_compute; discriminate).
  assert (H9 : ~ (0 <= toBigInt (@Field pallas 9) <= 3 - 1))
    by (vm_compute; intros [_ H]; apply H; reflexivity).
  assert (H5 : ~ (0 <= toBigInt (@Field pallas 5) <= 3 - 1))
    by (vm_compute; intros [_ H]; apply H; reflexivity).
  assert (H2 : 0 <= toBigInt (@Field pallas 2) <= 3 - 1)
    by (split; vm_compute; discriminate).
  assert (Hi5 : 1 <= 5 <= 2 ^ 53) by (split; vm_compute; discriminate).
  split; [|split; [|split]].
  - apply (proj1 (C5_step_errors 0 3 (Field 9) (Field 1))). lia.
  - apply (proj1 (proj2 (C5_step_errors 1 3 (Field 2) (Field 1))) Hn ltac:(lia)).
    exact H2.
  - apply (proj1 (proj2 (proj2 (C5_step_errors 5 3 (Field 5) (Field 1)))) Hn Hi5 H5).
    reflexivity.
  - apply (proj2 (proj2 (proj2 (C5_step_errors 1 3 (Field 9) (Field 1)))) Hn ltac:(lia) H9).
Defined.

(** C6. Partition of unity: for a message of length n >= 1 and r with
    representative outside [0, n), the evaluation computes n basis values
    (the base case, then the n - 1 steps of the recurrence), and they sum
    to 1. *)
Theorem C6_partition_of_unity (p : Z) (asciiToNumber : ascii -> Z)
    (message : string) (r : F p) :
  Z.prime p -> message <> EmptyString ->
  ~ (0 <= toBigInt r < Z.of_nat (String.length message)) ->
  List.length (basisLog (getFastUnivariateLagrange asciiToNumber message r))
  = String.length message
  /\ total (basisLog (getFastUnivariateLagrange asciiToNumber message r)) = Field 1.
Proof.
  intros Hp Hm Hr.
  pose proof (Z.prime_ge_2 p Hp) as Hp2.
  pose proof (toBigInt_bounds p ltac:(lia) r) as Hb.
  pose proof (length_nonempty message Hm) as Hl.
  rewrite (evaluate_sweep p Hp asciiToNumber message r Hl ltac:(lia)).
  unfold basisLog. cbn [fst]. split.
  - rewrite length_map, length_seq. reflexivity.
  - rewrite total_map.
    destruct (String.length message) as [|m] eqn:E; [lia|].
    apply (partition_of_unity p Hp m r). lia.
Qed.

Lemma C6_witness :
  List.length (basisLog (getFastUnivariateLagrange charCode "ABC" (@Field pallas 7)))
  = String.length "ABC"
  /\ total (basisLog (getFastUnivariateLagrange charCode "ABC" (@Field pallas 7)))
     = Field 1.
Proof.
  apply (C6_partition_of_unity pallas charCode "ABC" (Field 7) pallas_prime).
  - discriminate.
  - vm_compute. intros [_ H]. discriminate H.
Defined.

(** C7. On a single-symbol message the evaluator returns the field element
    of that symbol for every r; off the domain point 0 the one basis value
    computed is 1. *)
Theorem C7_single_symbol (p : Z) (asciiToNumber : ascii -> Z) (x : ascii) (r : F p) :
  1 < p ->
  value (getFastUnivariateLagrange asciiToNumber (String x EmptyString) r)
  = Ok (Field (asciiToNumber x))
  /\ (toBigInt r <> 0 ->
      basisLog (getFastUnivariateLagrange asciiToNumber (String x EmptyString) r)
      = [Field 1]).
Proof.
  intros Hp.
  pose proof (toBigInt_bounds p ltac:(lia) r) as Hb.
  destruct (Z.eq_dec (toBigInt r) 0) as [E|N].
  - destruct (evaluate_below_length p asciiToNumber (String x EmptyString) r)
      as [c [Hc Hv]]; cbn [String.length]; try lia.
    rewrite E in Hc. cbn in Hc. injection Hc as <-.
    rewrite Hv. split; [reflexivity|]. intros; contradiction.
  - unfold getFastUnivariateLagrange. cbn [String.length Nat.eqb].
    rewrite lessThan_small by lia.
    destruct (Z.ltb_spec (toBigInt r) (Z.of_nat 1)); [lia|].
    unfold getLagrangeBasisAt. cbn [seq map List.length forLoop].
    unfold basisBody, sweepBody. cbn [Nat.eqb negb].
    change (charAt (String x EmptyString) (Z.of_nat 0)) with (Some x).
    destruct (Z.ltb_spec (Z.of_nat 0) (Z.of_nat 1 - 1)); [lia|].
    cbn [orUndefined emit ret bind fst snd app value basisLog].
    split; [|reflexivity].
    f_equal. unfold add, mul.
    change (@Field p 0) with (@Zmod.zero p). change (@Field p 1) with (@Zmod.one p).
    rewrite Zmod.add_0_l, Zmod.mul_1_r. reflexivity.
Qed.

Lemma C7_witness :
  value (getFastUnivariateLagrange charCode "Z" (@Field pallas 5))
  = Ok (Field (charCode "Z"))
  /\ (toBigInt (@Field pallas 5) <> 0 ->
      basisLog (getFastUnivariateLagrange charCode "Z" (@Field pallas 5))
      = [Field 1]).
Proof.
  apply (C7_single_symbol pallas charCode "Z"%char (Field 5)).
  reflexivity.
Defined.

(** C8. On the empty message the evaluator fails with the empty-message
    error, for every r, with nothing computed before. *)
Theorem C8_empty_message (p : Z) (asciiToNumber : ascii -> Z) (r : F p) :
  getFastUnivariateLagrange asciiToNumber EmptyString r = ([], Err EmptyMessageError).
Proof. reflexivity. Qed.

(** C9. When the short-circuit guard holds, the index read from r is in
    [0, n) and the character lookup succeeds; and no run of the evaluator
    reads outside the message or the domain array. *)
Theorem C9_lookup_in_bounds (p : Z) (asciiToNumber : ascii -> Z)
    (message : string) (r : F p) :
  0 < p ->
  (lessThan r (Z.of_nat (String.length message)) = true ->
   0 <= Number (toBigInt r) < Z.of_nat (String.length message)
   /\ exists c, charAt message (Number (toBigInt r)) = Some c)
  /\ value (getFastUnivariateLagrange asciiToNumber message r) <> Err UndefinedAccess.
Proof.
  intros Hp. split.
  - intros Hg.
    pose proof (lessThan_true_bound p Hp r _ (Nat2Z.is_nonneg _) Hg) as Hr.
    unfold Number. split; [exact Hr|]. apply charAt_in_range. exact Hr.
  - apply evaluate_never_undefined. exact Hp.
Qed.

Lemma C9_witness :
  (lessThan (@Field pallas 1) (Z.of_nat (String.length "AB")) = true ->
   0 <= Number (toBigInt (@Field pallas 1)) < Z.of_nat (String.length "AB")
   /\ exists c, charAt "AB" (Number (toBigInt (@Field pallas 1))) = Some c)
  /\ value (getFastUnivariateLagrange charCode "AB" (@Field pallas 1))
     <> Err UndefinedAccess.
Proof.
  apply (C9_lookup_in_bounds pallas charCode "AB" (Field 1)).
  reflexivity.
Defined.

(** C10. On the short-circuit path only the selected symbol matters: two
    messages of the same length n >= 1 that agree at index r < n evaluate to
    the same result at r. *)
Theorem C10_only_selected_symbol (p : Z) (asciiToNumber : ascii -> Z)
    (m1 m2 : string) (r : F p) :
  (1 <= String.length m1)%nat ->
  String.length m1 = String.length m2 ->
  Z.of_nat (String.length m1) < p ->
  toBigInt r < Z.of_nat (String.length m1) ->
  String.get (Z.to_nat (toBigInt r)) m1 = String.get (Z.to_nat (toBigInt r)) m2 ->
  getFastUnivariateLagrange asciiToNumber m1 r
  = getFastUnivariateLagrange asciiToNumber m2 r.
Proof.
  intros Hn Hl Hp Hr Hs.
  destruct (evaluate_below_length p asciiToNumber m1 r Hn Hp Hr) as [c1 [G1 E1]].
  destruct (evaluate_below_length p asciiToNumber m2 r) as [c2 [G2 E2]]; try lia.
  rewrite E1, E2. congruence.
Qed.

Lemma C10_witness :
  getFastUnivariateLagrange charCode "ABC" (@Field pallas 1)
  = getFastUnivariateLagrange charCode "XBZ" (@Field pallas 1).
Proof.
  apply (C10_only_selected_symbol pallas charCode "ABC" "XBZ" (Field 1)).
  - cbn. lia.
  - reflexivity.
  - reflexivity.
  - reflexivity.
  - reflexivity.
Defined.

(** * Further properties of the three functions *)

Section Further.
Variable p : Z.
Hypothesis p_prime : Z.prime p.

Add Field ZmodFieldFurther : (Zmod.field_theory p p_prime).
Add Field FFieldFurther : (F_field_theory p p_prime).

(** ** [getLagrangeBasisAt] on any list of points *)

Lemma lookup_nth (set : list (F p)) (j : nat) :
  (j < List.length set)%nat -> nth_error set j = Some (nth j set (Field 0)).
Proof. intros H. apply nth_error_nth'. exact H. Qed.

Lemma basisLoop_general (set : list (F p)) (i : nat) (r : F p) (k a : nat) (acc : F p) :
  (a + k <= List.length set)%nat -> (i < List.length set)%nat ->
  (forall j, (a <= j < a + k)%nat -> j <> i ->
             nth j set (Field 0) <> nth i set (Field 0)) ->
  forLoop (seq a k) (basisBody i set r) acc
  = ret (mul acc
             (bigprod (fun j => Zmod.mdiv (sub r (nth j set (Field 0)))
                                          (sub (nth i set (Field 0)) (nth j set (Field 0))))
                      (filter (fun j => negb (j =? i)%nat) (seq a k)))).
Proof.
  revert a acc. induction k as [|k IH]; intros a acc Ha Hi Hd.
  - cbn [seq filter]. rewrite forLoop_nil, bigprod_nil. f_equal. fring.
  - cbn [seq filter]. rewrite forLoop_cons. unfold basisBody at 1.
    rewrite (Nat.eqb_sym i a).
    destruct (Nat.eqb_spec a i) as [->|Hne]; cbn [negb].
    + rewrite bind_ret_l, IH; [reflexivity|lia|exact Hi|].
      intros j Hj. apply Hd. lia.
    + rewrite !lookup_nth by lia. cbn [orUndefined]. rewrite !bind_ret_l.
      rewrite (div_nonzero p).
      2:{ apply (sub_nonzero p). intros E. apply (Hd a); [lia|exact Hne|].
          symmetry. exact E. }
      rewrite bind_ret_l, IH; [|lia|exact Hi|intros j Hj; apply Hd; lia].
      rewrite bigprod_cons. f_equal. unfold Zmod.mdiv. fring.
Qed.

Lemma getLagrangeBasisAt_distinct (set : list (F p)) (i : nat) (r : F p) :
  (i < List.length set)%nat ->
  (forall j, (j < List.length set)%nat -> j <> i ->
             nth j set (Field 0) <> nth i set (Field 0)) ->
  getLagrangeBasisAt i set r = ([basisOn set r i], Ok (basisOn set r i)).
Proof.
  intros Hi Hd. unfold getLagrangeBasisAt.
  rewrite (basisLoop_general set i r (List.length set) 0) by
    (try lia; intros j Hj; apply Hd; lia).
  rewrite bind_ret_l.
  replace (mul (Field 1) _) with (basisOn set r i).
  - apply bind_emit_ret.
  - unfold basisOn, others. fring.
Qed.

(** A point equal to x_i makes the loop divide by zero. *)
Lemma basisLoop_duplicate (set : list (F p)) (i : nat) (r : F p) (k a : nat) (acc : F p) :
  (a + k <= List.length set)%nat -> (i < List.length set)%nat ->
  (exists j, (a <= j < a + k)%nat /\ j <> i /\
             nth j set (Field 0) = nth i set (Field 0)) ->
  forLoop (seq a k) (basisBody i set r) acc = ([], Err DivisionByZero).
Proof.
  revert a acc. induction k as [|k IH]; intros a acc Ha Hi [j [Hj [Hji E]]]; [lia|].
  cbn [seq]. rewrite forLoop_cons. unfold basisBody at 1.
  destruct (Nat.eqb_spec i a) as [Hia|Hia]; cbn [negb].
  - rewrite bind_ret_l. apply IH; [lia|exact Hi|].
    exists j. repeat split; try assumption; lia.
  - rewrite !lookup_nth by lia. cbn [orUndefined]. rewrite !bind_ret_l.
    unfold div at 1.
    destruct (Zmod.eqb_spec (sub (nth i set (Field 0)) (nth a set (Field 0))) Zmod.zero)
      as [Z|NZ].
    + reflexivity.
    + rewrite bind_ret_l. apply IH; [lia|exact Hi|].
      exists j. repeat split; try assumption; try lia.
      destruct (Nat.eq_dec j a) as [->|]; [|lia].
      exfalso. apply NZ. rewrite E. apply Zmod.sub_same.
Qed.

(** ** The basis at the interpolation points *)

Lemma bigprod_zero_factor (f : nat -> F p) (l : list nat) (k : nat) :
  In k l -> f k = Zmod.zero -> bigprod f l = Zmod.zero.
Proof.
  induction l as [|j l IH]; intros Hk E; [contradiction|].
  rewrite bigprod_cons. destruct Hk as [->|Hk].
  - rewrite E. fring.
  - rewrite IH by assumption. fring.
Qed.

Lemma bigprod_ones (f : nat -> F p) (l : list nat) :
  (forall j, In j l -> f j = Zmod.one) -> bigprod f l = Zmod.one.
Proof.
  induction l as [|j l IH]; intros E; [reflexivity|].
  rewrite bigprod_cons, E, IH; [fring| |left; reflexivity].
  intros k Hk. apply E. right. exact Hk.
Qed.

Lemma basisOn_at_point (set : list (F p)) (i k : nat) :
  (i < List.length set)%nat -> (k < List.length set)%nat ->
  (forall j, (j < List.length set)%nat -> j <> i ->
             nth j set (Field 0) <> nth i set (Field 0)) ->
  basisOn set (nth k set (Field 0)) i = if (i =? k)%nat then Field 1 else Field 0.
Proof.
  intros Hi Hk Hd. unfold basisOn.
  destruct (Nat.eqb_spec i k) as [->|Hne].
  - apply bigprod_ones. intros j Hj. apply In_others in Hj.
    apply Zmod.mdiv_same_prime; [exact p_prime|].
    apply (sub_nonzero p). intros E. apply (Hd j); [lia|lia|]. symmetry. exact E.
  - apply (bigprod_zero_factor _ _ k).
    + apply In_others. lia.
    + unfold sub. rewrite Zmod.sub_same. unfold Zmod.mdiv. fring.
Qed.

(** ** The interpolation points 0, ..., n-1 *)

Lemma length_interpolatingSetOf (n : nat) : List.length (interpolatingSetOf p n) = n.
Proof. unfold interpolatingSetOf. rewrite length_map, length_seq. reflexivity. Qed.

Lemma nth_interpolatingSetOf (n j : nat) :
  (j < n)%nat -> nth j (interpolatingSetOf p n) (Field 0) = Field (Z.of_nat j).
Proof.
  intros H. apply nth_error_nth. unfold interpolatingSetOf.
  apply domain_lookup. exact H.
Qed.

Lemma interpolatingSetOf_distinct (n i j : nat) :
  Z.of_nat n <= p -> (i < n)%nat -> (j < n)%nat -> j <> i ->
  nth j (interpolatingSetOf p n) (Field 0) <> nth i (interpolatingSetOf p n) (Field 0).
Proof.
  intros Hn Hi Hj Hne. rewrite !nth_interpolatingSetOf by assumption.
  intros E. apply Field_index_inj in E; lia.
Qed.

Lemma basisOn_interpolatingSetOf (n i : nat) (r : F p) :
  (i < n)%nat -> basisOn (interpolatingSetOf p n) r i = referenceBasis n r i.
Proof.
  intros Hi. unfold basisOn, referenceBasis.
  rewrite length_interpolatingSetOf. apply bigprod_ext_in.
  intros j Hj. apply In_others in Hj.
  rewrite !nth_interpolatingSetOf by lia. reflexivity.
Qed.

Lemma getLagrangeBasisAt_domain (n i : nat) (r : F p) :
  (i < n)%nat -> Z.of_nat n <= p ->
  getLagrangeBasisAt i (interpolatingSetOf p n) r
  = ([referenceBasis n r i], Ok (referenceBasis n r i)).
Proof.
  intros Hi Hn. rewrite getLagrangeBasisAt_distinct.
  - rewrite basisOn_interpolatingSetOf by exact Hi. reflexivity.
  - rewrite length_interpolatingSetOf. exact Hi.
  - rewrite length_interpolatingSetOf. intros j Hj Hne.
    apply interpolatingSetOf_distinct; assumption.
Qed.

Lemma referenceBasis_at_point (n i k : nat) :
  (i < n)%nat -> (k < n)%nat -> Z.of_nat n <= p ->
  referenceBasis n (@Field p (Z.of_nat k)) i = if (i =? k)%nat then Field 1 else Field 0.
Proof.
  intros Hi Hk Hn.
  rewrite <- basisOn_interpolatingSetOf by exact Hi.
  rewrite <- (nth_interpolatingSetOf n k Hk).
  apply basisOn_at_point; rewrite ?length_interpolatingSetOf; try assumption.
  intros j Hj Hne. apply interpolatingSetOf_distinct; assumption.
Qed.

(** ** The reference polynomial at and off the interpolation points *)

Variable asciiToNumber : ascii -> Z.

Lemma bigsum_zeros (f : nat -> F p) (l : list nat) :
  (forall j, In j l -> f j = Zmod.zero) -> bigsum f l = Zmod.zero.
Proof.
  induction l as [|j l IH]; intros E; [reflexivity|].
  rewrite bigsum_cons, E, IH; [fring| |left; reflexivity].
  intros k Hk. apply E. right. exact Hk.
Qed.

Lemma bigsum_scale (c : F p) (f : nat -> F p) (l : list nat) :
  bigsum (fun i => mul c (f i)) l = mul c (bigsum f l).
Proof.
  induction l as [|j l IH].
  - rewrite !bigsum_nil. fring.
  - rewrite !bigsum_cons, IH. fring.
Qed.

(** Two summands that differ at one index only. *)
Lemma bigsum_change_one (f g : nat -> F p) (l : list nat) (k : nat) :
  NoDup l -> In k l -> (forall i, In i l -> i <> k -> f i = g i) ->
  bigsum f l = add (bigsum g l) (sub (f k) (g k)).
Proof.
  induction l as [|j l IH]; intros Hnd Hk E; [contradiction|].
  inversion Hnd as [|? ? Hj Hnd']; subst.
  rewrite !bigsum_cons. destruct Hk as [->|Hk].
  - rewrite (bigsum_ext_in p f g l); [fring|].
    intros i Hi. apply E; [right; exact Hi|]. intros ->. contradiction.
  - rewrite IH; try assumption.
    + rewrite (E j); [fring|left; reflexivity|]. intros ->. contradiction.
    + intros i Hi. apply E. right. exact Hi.
Qed.

Lemma referenceP_at_point (message : string) (k : nat) :
  (k < String.length message)%nat -> Z.of_nat (String.length message) <= p ->
  referenceP asciiToNumber message (@Field p (Z.of_nat k))
  = coefficientAt asciiToNumber message k.
Proof.
  intros Hk Hn. unfold referenceP.
  rewrite (bigsum_change_one _ (fun _ => Zmod.zero) _ k).
  - rewrite bigsum_zeros by reflexivity.
    rewrite referenceBasis_at_point, Nat.eqb_refl by assumption. fring.
  - apply seq_NoDup.
  - apply in_seq. lia.
  - intros i Hi Hne. apply in_seq in Hi.
    rewrite referenceBasis_at_point by (try assumption; lia).
    destruct (Nat.eqb_spec i k); [contradiction|]. fring.
Qed.

(** On both paths the evaluator returns the value of the reference
    polynomial. *)
Lemma evaluate_everywhere (message : string) (r : F p) :
  (1 <= String.length message)%nat -> Z.of_nat (String.length message) < p ->
  value (getFastUnivariateLagrange asciiToNumber message r)
  = Ok (referenceP asciiToNumber message r).
Proof.
  intros Hl Hn.
  destruct (Z.lt_ge_cases (toBigInt r) (Z.of_nat (String.length message))) as [Hr|Hr].
  - destruct (evaluate_below_length p asciiToNumber message r Hl Hn Hr) as [c [Hc E]].
    rewrite E. unfold value. cbn [snd]. f_equal.
    pose proof (toBigInt_range p p_prime r) as Hb.
    set (k := Z.to_nat (toBigInt r)) in *.
    assert (Er : r = Field (Z.of_nat k)).
    { unfold k. rewrite Z2Nat.id by lia. symmetry. apply Zmod.of_Z_unsigned. }
    rewrite Er, referenceP_at_point by lia.
    unfold coefficientAt. rewrite Hc. reflexivity.
  - rewrite (evaluate_sweep p p_prime asciiToNumber message r Hl Hr). reflexivity.
Qed.

Lemma mdiv_nonzero (a b : F p) :
  a <> Zmod.zero -> b <> Zmod.zero -> Zmod.mdiv a b <> Zmod.zero.
Proof.
  intros Ha Hb E. unfold Zmod.mdiv in E.
  apply (Zmod.mul_0_iff_prime p_prime) in E. destruct E as [E|E].
  - exact (Ha E).
  - exact (Zmod.inv_nz_prime b p_prime Hb E).
Qed.

(** Off the interpolation points no basis value is zero. *)
Lemma referenceBasis_nonzero (n i : nat) (r : F p) :
  (i < n)%nat -> Z.of_nat n <= toBigInt r -> referenceBasis n r i <> Zmod.zero.
Proof.
  intros Hi Hr. pose proof (toBigInt_range p p_prime r) as Hb.
  unfold referenceBasis. apply (bigprod_nonzero p p_prime).
  intros j Hj. apply mdiv_nonzero.
  - apply In_others in Hj. apply (sub_nonzero p), (above_ne_Field p p_prime). lia.
  - apply (denominator_nonzero p n i j); [lia|lia|exact Hj].
Qed.

Lemma referenceP_two_symbols (a b : ascii) (r : F p) :
  2 < p ->
  referenceP asciiToNumber (String a (String b EmptyString)) r
  = add (Field (asciiToNumber a))
        (mul (sub (Field (asciiToNumber b)) (Field (asciiToNumber a))) r).
Proof.
  intros Hp. unfold referenceP. cbn [String.length seq].
  rewrite !bigsum_cons, bigsum_nil.
  unfold referenceBasis, others. cbn [seq filter Nat.eqb negb].
  rewrite !bigprod_cons, !bigprod_nil.
  unfold coefficientAt. cbn [String.get].
  change (Z.of_nat 0) with 0. change (Z.of_nat 1) with 1.
  assert (H10 : @Zmod.one p <> Zmod.zero) by (apply Zmod.one_neq_zero; lia).
  assert (H1 : Zmod.sub (@Zmod.one p) Zmod.zero <> Zmod.zero).
  { intros E. apply Zmod.sub_eq_0 in E. exact (H10 E). }
  assert (H2 : Zmod.sub (@Zmod.zero p) Zmod.one <> Zmod.zero).
  { intros E. apply Zmod.sub_eq_0 in E. exact (H10 (eq_sym E)). }
  fnorm. field. split; assumption.
Qed.

End Further.

(** ** Outcomes that need no field reasoning *)

Lemma orUndefined_only_undefined {L A} (e : error) (o : option A) :
  e <> UndefinedAccess -> snd (@orUndefined L A o) <> Err e.
Proof. intros He. destruct o; cbn; congruence. Qed.

Lemma div_only_division (p : Z) (e : error) (x y : F p) :
  e <> DivisionByZero -> snd (div x y) <> Err e.
Proof. intros He. unfold div. destruct (Zmod.eqb y Zmod.zero); cbn; congruence. Qed.

Lemma basisBody_never_index (p : Z) (i : nat) (set : list (F p)) (r : F p)
    (j : nat) (acc : F p) :
  snd (basisBody i set r j acc) <> Err InvalidIndexError.
Proof.
  unfold basisBody. destruct (negb (i =? j)%nat); [|discriminate].
  apply bind_never; [apply orUndefined_only_undefined; discriminate|]. intros xj.
  apply bind_never; [apply orUndefined_only_undefined; discriminate|]. intros xi.
  apply div_only_division. discriminate.
Qed.

Lemma getNext_never_index (p : Z) (i n : Z) (r prev : F p) :
  1 <= i -> snd (getNextLagrangeBasisPolynomialAtInput i n r prev) <> Err InvalidIndexError.
Proof.
  intros Hi. unfold getNextLagrangeBasisPolynomialAtInput.
  destruct (Z.ltb_spec i 1); [lia|].
  destruct (greaterThanOrEqual r 0 && lessThanOrEqual r (n - 1)); [discriminate|].
  apply bind_never; [apply div_only_division; discriminate|]. intros q.
  apply bind_never; [apply div_only_division; discriminate|]. intros next.
  discriminate.
Qed.

Lemma sweepBody_never_index (p : Z) (asciiToNumber : ascii -> Z)
    (message : string) (n : nat) (r : F p) (i : nat) (st : F p * F p) :
  snd (sweepBody asciiToNumber message n r i st) <> Err InvalidIndexError.
Proof.
  unfold sweepBody. destruct st as [result cur].
  apply bind_never; [apply orUndefined_only_undefined; discriminate|]. intros c.
  destruct (Z.of_nat i <? Z.of_nat n - 1); [|discriminate].
  apply bind_never; [apply getNext_never_index; lia|]. discriminate.
Qed.

(** * Further properties: statements *)

(** X1. On any list of points in which x_i differs from every other point,
    [getLagrangeBasisAt] returns the product of its documentation,
    product over j <> i of (r - x_j) / (x_i - x_j), for every r (also when r
    is one of the points), and that is the one basis value it computes. *)
Theorem X1_basis_on_distinct_points (p : Z) (interpolatingSet : list (F p))
    (i : nat) (r : F p) :
  Z.prime p ->
  (i < List.length interpolatingSet)%nat ->
  (forall j, (j < List.length interpolatingSet)%nat -> j <> i ->
             nth j interpolatingSet (Field 0) <> nth i interpolatingSet (Field 0)) ->
  getLagrangeBasisAt i interpolatingSet r
  = ([basisOn interpolatingSet r i], Ok (basisOn interpolatingSet r i)).
Proof.
  intros Hp Hi Hd. apply getLagrangeBasisAt_distinct; assumption.
Qed.

Lemma X1_witness :
  getLagrangeBasisAt 1 [@Field pallas 3; Field 10; Field 4] (Field 3)
  = ([basisOn [@Field pallas 3; Field 10; Field 4] (Field 3) 1],
     Ok (basisOn [@Field pallas 3; Field 10; Field 4] (Field 3) 1)).
Proof.
  apply (X1_basis_on_distinct_points pallas [Field 3; Field 10; Field 4] 1 (Field 3)
           pallas_prime).
  - cbn. lia.
  - intros j Hj Hne E. cbn in Hj.
    destruct j as [|[|[|j]]]; try lia;
      apply (f_equal toBigInt) in E; vm_compute in E; discriminate E.
Defined.

(** X2. When another point of the list equals x_i, [getLagrangeBasisAt]
    fails with the division error of the field, whatever r is. *)
Theorem X2_basis_duplicate_point (p : Z) (interpolatingSet : list (F p))
    (i : nat) (r : F p) :
  (i < List.length interpolatingSet)%nat ->
  (exists j, (j < List.length interpolatingSet)%nat /\ j <> i /\
             nth j interpolatingSet (Field 0) = nth i interpolatingSet (Field 0)) ->
  getLagrangeBasisAt i interpolatingSet r = ([], Err DivisionByZero).
Proof.
  intros Hi [j [Hj [Hne E]]]. unfold getLagrangeBasisAt.
  rewrite (basisLoop_duplicate p interpolatingSet i r (List.length interpolatingSet) 0).
  - reflexivity.
  - lia.
  - exact Hi.
  - exists j. repeat split; try assumption; lia.
Qed.

Lemma X2_witness :
  getLagrangeBasisAt 0 [@Field pallas 3; Field 10; Field 3] (Field 7)
  = ([], Err DivisionByZero).
Proof.
  apply (X2_basis_duplicate_point pallas [Field 3; Field 10; Field 3] 0 (Field 7)).
  - cbn. lia.
  - exists 2%nat. cbn. split; [lia|]. split; [lia|reflexivity].
Defined.

(** X3. With an index i past the end of a non-empty list of points,
    [getLagrangeBasisAt] fails on the first turn of its loop, reading the
    point x_i that does not exist. *)
Theorem X3_basis_index_out_of_range (p : Z) (interpolatingSet : list (F p))
    (i : nat) (r : F p) :
  interpolatingSet <> [] ->
  (List.length interpolatingSet <= i)%nat ->
  getLagrangeBasisAt i interpolatingSet r = ([], Err UndefinedAccess).
Proof.
  intros Hne Hi. destruct interpolatingSet as [|x0 rest]; [congruence|].
  unfold getLagrangeBasisAt. cbn [List.length seq]. rewrite forLoop_cons.
  unfold basisBody at 1. cbn [List.length] in Hi.
  destruct (Nat.eqb_spec i 0) as [E|_]; [lia|]. cbn [negb nth_error orUndefined].
  rewrite bind_ret_l.
  assert (N : nth_error (x0 :: rest) i = None).
  { apply nth_error_None. cbn [List.length]. lia. }
  rewrite N. reflexivity.
Qed.

Lemma X3_witness :
  getLagrangeBasisAt 2 [@Field pallas 0; Field 1] (Field 7) = ([], Err UndefinedAccess).
Proof.
  apply (X3_basis_index_out_of_range pallas [Field 0; Field 1] 2 (Field 7)).
  - discriminate.
  - cbn. lia.
Defined.

(** X4. On a list of pairwise distinct points, the basis value computed by
    [getLagrangeBasisAt] at the point x_k is 1 when k = i and 0 otherwise. *)
Theorem X4_basis_at_points (p : Z) (interpolatingSet : list (F p)) (i k : nat) :
  Z.prime p -> NoDup interpolatingSet ->
  (i < List.length interpolatingSet)%nat ->
  (k < List.length interpolatingSet)%nat ->
  value (getLagrangeBasisAt i interpolatingSet (nth k interpolatingSet (Field 0)))
  = Ok (if (i =? k)%nat then Field 1 else Field 0).
Proof.
  intros Hp Hnd Hi Hk.
  assert (Hd : forall j, (j < List.length interpolatingSet)%nat -> j <> i ->
                         nth j interpolatingSet (Field 0)
                         <> nth i interpolatingSet (Field 0)).
  { intros j Hj Hne E. apply Hne.
    apply (proj1 (NoDup_nth interpolatingSet (Field 0)) Hnd j i Hj Hi E). }
  rewrite (getLagrangeBasisAt_distinct p Hp interpolatingSet i _ Hi Hd).
  unfold value. cbn [snd]. f_equal.
  apply basisOn_at_point; assumption.
Qed.

Lemma X4_witness :
  value (getLagrangeBasisAt 1 [@Field pallas 3; Field 10; Field 4]
                            (nth 2 [@Field pallas 3; Field 10; Field 4] (Field 0)))
  = Ok (if (1 =? 2)%nat then Field 1 else Field 0).
Proof.
  apply (X4_basis_at_points pallas [Field 3; Field 10; Field 4] 1 2 pallas_prime).
  - repeat constructor; cbn; intros H;
      repeat (destruct H as [H|H];
              [apply (f_equal toBigInt) in H; vm_compute in H; discriminate H|]);
      exact H.
  - cbn. lia.
  - cbn. lia.
Defined.

(** X5. The evaluator returns the value of the reference polynomial at every
    r, on the short-circuit path as well: reading the symbol at index r is
    what the sum of products evaluates to at a point of the domain. *)
Theorem X5_evaluate_is_reference_everywhere (p : Z) (asciiToNumber : ascii -> Z)
    (message : string) (r : F p) :
  Z.prime p -> message <> EmptyString ->
  Z.of_nat (String.length message) < p ->
  value (getFastUnivariateLagrange asciiToNumber message r)
  = Ok (referenceP asciiToNumber message r).
Proof.
  intros Hp Hm Hn. apply evaluate_everywhere; [exact Hp| |exact Hn].
  apply length_nonempty. exact Hm.
Qed.

Lemma X5_witness :
  value (getFastUnivariateLagrange charCode "ABC" (@Field pallas 1))
  = Ok (referenceP charCode "ABC" (Field 1)).
Proof.
  apply (X5_evaluate_is_reference_everywhere pallas charCode "ABC" (Field 1) pallas_prime).
  - discriminate.
  - reflexivity.
Defined.

(** X6. Off the domain, the i-th basis value that the linear sweep of the
    evaluator computes (the base case, then the recurrence) is the value that
    the direct computation [getLagrangeBasisAt(i, interpolatingSet, r)]
    returns. *)
Theorem X6_sweep_values_are_direct_values (p : Z) (asciiToNumber : ascii -> Z)
    (message : string) (r : F p) (i : nat) :
  Z.prime p ->
  ~ (0 <= toBigInt r < Z.of_nat (String.length message)) ->
  (i < String.length message)%nat ->
  exists v,
    nth_error (basisLog (getFastUnivariateLagrange asciiToNumber message r)) i = Some v
    /\ getLagrangeBasisAt i (interpolatingSetOf p (String.length message)) r
       = ([v], Ok v).
Proof.
  intros Hp Hr Hi.
  pose proof (Z.prime_ge_2 p Hp) as Hp2.
  pose proof (toBigInt_bounds p ltac:(lia) r) as Hb.
  exists (referenceBasis (String.length message) r i). split.
  - rewrite (evaluate_sweep p Hp asciiToNumber message r) by lia.
    unfold basisLog. cbn [fst].
    rewrite nth_error_map, nth_error_seq.
    destruct (Nat.ltb_spec i (String.length message)); [reflexivity|lia].
  - apply getLagrangeBasisAt_domain; [exact Hp|exact Hi|lia].
Qed.

Lemma X6_witness :
  exists v,
    nth_error (basisLog (getFastUnivariateLagrange charCode "ABC" (@Field pallas 9))) 2
    = Some v
    /\ getLagrangeBasisAt 2 (interpolatingSetOf pallas (String.length "ABC")) (Field 9)
       = ([v], Ok v).
Proof.
  apply (X6_sweep_values_are_direct_values pallas charCode "ABC" (Field 9) 2 pallas_prime).
  - vm_compute. intros [_ H]. discriminate H.
  - cbn. lia.
Defined.

(** X7. The recurrence step continues the direct computation: for
    i + 1 < n and r off the domain, fed the value of
    [getLagrangeBasisAt(i, ...)] it returns the value of
    [getLagrangeBasisAt(i + 1, ...)]. *)
Theorem X7_step_continues_direct_computation (p : Z) (n i : nat) (r : F p) :
  Z.prime p -> (S i < n)%nat -> Z.of_nat n <= toBigInt r ->
  exists v v',
    value (getLagrangeBasisAt i (interpolatingSetOf p n) r) = Ok v
    /\ value (getLagrangeBasisAt (S i) (interpolatingSetOf p n) r) = Ok v'
    /\ value (getNextLagrangeBasisPolynomialAtInput
                (Z.of_nat (S i)) (Z.of_nat n) r v) = Ok v'.
Proof.
  intros Hp Hi Hr.
  pose proof (Z.prime_ge_2 p Hp) as Hp2.
  pose proof (toBigInt_bounds p ltac:(lia) r) as Hb.
  exists (referenceBasis n r i), (referenceBasis n r (S i)).
  rewrite !(getLagrangeBasisAt_domain p Hp) by lia.
  replace (Z.of_nat (S i)) with (Z.of_nat i + 1) by lia.
  rewrite (getNext_reference p Hp n i r Hi Hr).
  repeat split.
Qed.

Lemma X7_witness :
  exists v v',
    value (getLagrangeBasisAt 0 (interpolatingSetOf pallas 3) (Field 9)) = Ok v
    /\ value (getLagrangeBasisAt 1 (interpolatingSetOf pallas 3) (Field 9)) = Ok v'
    /\ value (getNextLagrangeBasisPolynomialAtInput
                (Z.of_nat 1) (Z.of_nat 3) (@Field pallas 9) v) = Ok v'.
Proof.
  apply (X7_step_continues_direct_computation pallas 3 0 (Field 9) pallas_prime).
  - lia.
  - vm_compute. discriminate.
Defined.

(** X8. Off the domain every symbol matters: two messages of the same length
    whose coefficients agree except at one index, where they differ, evaluate
    to different field elements. *)
Theorem X8_every_symbol_matters (p : Z) (asciiToNumber : ascii -> Z)
    (m1 m2 : string) (r : F p) (k : nat) :
  Z.prime p ->
  String.length m1 = String.length m2 ->
  (k < String.length m1)%nat ->
  ~ (0 <= toBigInt r < Z.of_nat (String.length m1)) ->
  (forall i, (i < String.length m1)%nat -> i <> k ->
             @coefficientAt p asciiToNumber m1 i = coefficientAt asciiToNumber m2 i) ->
  @coefficientAt p asciiToNumber m1 k <> coefficientAt asciiToNumber m2 k ->
  value (getFastUnivariateLagrange asciiToNumber m1 r)
  <> value (getFastUnivariateLagrange asciiToNumber m2 r).
Proof.
  intros Hp Hl Hk Hr Hsame Hdiff.
  pose proof (Z.prime_ge_2 p Hp) as Hp2.
  pose proof (toBigInt_bounds p ltac:(lia) r) as Hb.
  rewrite (evaluate_sweep p Hp asciiToNumber m1 r) by lia.
  rewrite (evaluate_sweep p Hp asciiToNumber m2 r) by lia.
  unfold value. cbn [snd]. intros E. injection E as E.
  unfold referenceP in E. rewrite <- Hl in E.
  rewrite (bigsum_change_one p Hp _
             (fun i => mul (coefficientAt asciiToNumber m2 i)
                           (referenceBasis (String.length m1) r i))
             _ k) in E.
  - apply (f_equal (fun x => sub x (bigsum
             (fun i => mul (coefficientAt asciiToNumber m2 i)
                           (referenceBasis (String.length m1) r i))
             (seq 0 (String.length m1))))) in E.
    assert (Z0 : mul (sub (coefficientAt asciiToNumber m1 k)
                          (coefficientAt asciiToNumber m2 k))
                     (referenceBasis (String.length m1) r k) = Zmod.zero).
    { transitivity (sub (bigsum
             (fun i => mul (coefficientAt asciiToNumber m2 i)
                           (referenceBasis (String.length m1) r i))
             (seq 0 (String.length m1))) (bigsum
             (fun i => mul (coefficientAt asciiToNumber m2 i)
                           (referenceBasis (String.length m1) r i))
             (seq 0 (String.length m1)))).
      - rewrite <- E. unfold add, sub, mul.
        rewrite <- Zmod.add_sub_l, Zmod.sub_same, Zmod.add_0_l, Zmod.mul_sub_l.
        reflexivity.
      - apply Zmod.sub_same. }
    apply (Zmod.mul_0_iff_prime Hp) in Z0. destruct Z0 as [Z0|Z0].
    + apply Hdiff. apply Zmod.sub_eq_0. exact Z0.
    + apply (referenceBasis_nonzero p Hp (String.length m1) k r Hk ltac:(lia)).
      exact Z0.
  - apply seq_NoDup.
  - apply in_seq. lia.
  - intros i Hi Hne. apply in_seq in Hi. rewrite (Hsame i) by lia. reflexivity.
Qed.

Lemma X8_witness :
  value (getFastUnivariateLagrange charCode "AB" (@Field pallas 5))
  <> value (getFastUnivariateLagrange charCode "AC" (@Field pallas 5)).
Proof.
  apply (X8_every_symbol_matters pallas charCode "AB" "AC" (Field 5) 1 pallas_prime).
  - reflexivity.
  - cbn. lia.
  - vm_compute. intros [_ H]. discriminate H.
  - intros i Hi Hne. cbn in Hi. destruct i as [|[|i]]; try lia. reflexivity.
  - intros E. apply (f_equal toBigInt) in E. vm_compute in E. discriminate E.
Defined.

(** X9. The evaluator never fails with the index error of the recurrence:
    every index it passes is at least 1.  This holds for every message, every
    r and every modulus. *)
Theorem X9_never_index_error (p : Z) (asciiToNumber : ascii -> Z)
    (message : string) (r : F p) :
  value (getFastUnivariateLagrange asciiToNumber message r) <> Err InvalidIndexError.
Proof.
  unfold value, getFastUnivariateLagrange.
  destruct (String.length message =? 0)%nat; [discriminate|].
  destruct (lessThan r (Z.of_nat (String.length message))).
  - apply bind_never; [apply orUndefined_only_undefined; discriminate|]. discriminate.
  - apply bind_never.
    + unfold getLagrangeBasisAt. apply bind_never; [|discriminate].
      apply forLoop_never. intros j s _. apply basisBody_never_index.
    + intros cur. apply bind_never; [|discriminate].
      apply forLoop_never. intros i s _. apply sweepBody_never_index.
Qed.

(** X10. On an empty domain (n = 0) the range check of the recurrence step
    always fires: n - 1 = -1 is the largest field element, so for every
    i >= 1 the step fails with the domain error, whatever r is. *)
Theorem X10_step_on_empty_domain (p : Z) (i : Z) (r previous : F p) :
  0 < p -> 1 <= i ->
  getNextLagrangeBasisPolynomialAtInput i 0 r previous = ([], Err DomainPointError).
Proof.
  intros Hp Hi. unfold getNextLagrangeBasisPolynomialAtInput.
  destruct (Z.ltb_spec i 1); [lia|].
  rewrite greaterThanOrEqual_0 by exact Hp.
  unfold lessThanOrEqual. rewrite toBigInt_Field.
  pose proof (toBigInt_bounds p Hp r) as Hb.
  assert (E : (0 - 1) mod p = p - 1).
  { symmetry. apply (Z.mod_unique_pos _ _ (-1)); lia. }
  rewrite E.
  destruct (Z.leb_spec (toBigInt r) (p - 1)); [reflexivity|lia].
Qed.

Lemma X10_witness :
  getNextLagrangeBasisPolynomialAtInput 1 0 (@Field pallas 7) (Field 1)
  = ([], Err DomainPointError).
Proof.
  apply (X10_step_on_empty_domain pallas 1 (Field 7) (Field 1)).
  - reflexivity.
  - lia.
Defined.

(** X11. A message whose symbols all have the same coefficient c evaluates
    to c at every r: the interpolating polynomial of a constant is that
    constant. *)
Theorem X11_constant_message (p : Z) (asciiToNumber : ascii -> Z)
    (message : string) (c r : F p) :
  Z.prime p -> message <> EmptyString ->
  Z.of_nat (String.length message) < p ->
  (forall i, (i < String.length message)%nat ->
             coefficientAt asciiToNumber message i = c) ->
  value (getFastUnivariateLagrange asciiToNumber message r) = Ok c.
Proof.
  intros Hp Hm Hn Hc.
  pose proof (length_nonempty message Hm) as Hl.
  rewrite (evaluate_everywhere p Hp asciiToNumber message r Hl Hn).
  f_equal. unfold referenceP.
  rewrite (bigsum_ext_in p _
             (fun i => mul c (referenceBasis (String.length message) r i))).
  2:{ intros i Hi. apply in_seq in Hi. rewrite Hc by lia. reflexivity. }
  rewrite (bigsum_scale p Hp).
  destruct (String.length message) as [|m] eqn:E; [lia|].
  rewrite (partition_of_unity p Hp m r) by lia.
  apply Zmod.mul_1_r.
Qed.

Lemma X11_witness :
  value (getFastUnivariateLagrange charCode "ZZZ" (@Field pallas 12345))
  = Ok (Field 90).
Proof.
  apply (X11_constant_message pallas charCode "ZZZ" (Field 90) (Field 12345) pallas_prime).
  - discriminate.
  - reflexivity.
  - intros i Hi. cbn in Hi. destruct i as [|[|[|i]]]; try lia; reflexivity.
Defined.

(** X12. On a message of two symbols the evaluator is the line through them:
    it returns c_0 + (c_1 - c_0) * r at every r. *)
Theorem X12_two_symbols (p : Z) (asciiToNumber : ascii -> Z) (a b : ascii) (r : F p) :
  Z.prime p -> 2 < p ->
  value (getFastUnivariateLagrange asciiToNumber (String a (String b EmptyString)) r)
  = Ok (add (Field (asciiToNumber a))
            (mul (sub (Field (asciiToNumber b)) (Field (asciiToNumber a))) r)).
Proof.
  intros Hp Hp2.
  rewrite (evaluate_everywhere p Hp asciiToNumber); cbn [String.length]; try lia.
  f_equal. apply referenceP_two_symbols; assumption.
Qed.

Lemma X12_witness :
  value (getFastUnivariateLagrange charCode "AB" (@Field pallas 2))
  = Ok (add (Field (charCode "A"))
            (mul (sub (Field (charCode "B")) (Field (charCode "A"))) (Field 2))).
Proof.
  apply (X12_two_symbols pallas charCode "A"%char "B"%char (Field 2) pallas_prime).
  reflexivity.
Defined.
